(** * Port utilities: a verified model of [utils/port_utils.py]

    The development embeds the four functions of the module
    ([_iter_hosts_for_port_check], [is_port_in_use],
    [prompt_for_available_port], [update_env_port]) and its [main] entry
    point, together with the parts of the Python runtime they rely on:
    [str] methods, [pathlib] directory creation and whole-file reads and
    writes, the logger, the standard streams and the resolver.

    Layout: the text model, the runtime (exceptions, files, streams and
    the effect monad), the program, the vocabulary in which its properties
    are stated, and then the lemmas and the properties themselves.

    Modelling assumptions.  Files hold valid UTF-8 and are kept as decoded
    text; the platform's line separator is LF.  Whether a port accepts
    connections does not change during one run.  Standard input is a
    finite script of lines and interrupts followed by end of input.
    Creating a socket and calling [connect_ex] do not raise. *)

From Stdlib Require Import ZArith NArith Ascii String Decimal List Lia.
From stdpp Require Import base option list gmap strings.

#[local] Open Scope Z_scope.

(* ===================================================================== *)
(** * Python text *)
(* ===================================================================== *)

Module Text.

(** A Python [str] is a sequence of Unicode code points. *)
Definition char := N.
Definition str := list char.

(** Literals are written as Rocq strings, whose bytes are the UTF-8
    encoding of the text; [lit] decodes them to code points. *)
Fixpoint utf8_decode (bs : list N) : str :=
  match bs with
  | [] => []
  | b :: t =>
      if (b <? 128)%N then b :: utf8_decode t
      else if (b <? 224)%N then
        match t with
        | b1 :: t' => ((b - 192) * 64 + (b1 - 128))%N :: utf8_decode t'
        | _ => []
        end
      else if (b <? 240)%N then
        match t with
        | b1 :: b2 :: t' =>
            ((b - 224) * 4096 + (b1 - 128) * 64 + (b2 - 128))%N :: utf8_decode t'
        | _ => []
        end
      else
        match t with
        | b1 :: b2 :: b3 :: t' =>
            ((b - 240) * 262144 + (b1 - 128) * 4096 + (b2 - 128) * 64 + (b3 - 128))%N
              :: utf8_decode t'
        | _ => []
        end
  end.

Definition lit (s : string) : str :=
  utf8_decode (map N_of_ascii (list_ascii_of_string s)).

Definition LF : char := 10%N.
Definition CR : char := 13%N.

Definition str_eqb (a b : str) : bool := bool_decide (a = b).

(** [str.isspace] on one code point: the characters [str.strip] removes. *)
Definition isspace (c : char) : bool :=
  ((9 <=? c) && (c <=? 13) || (28 <=? c) && (c <=? 32)
   || (c =? 133) || (c =? 160) || (c =? 5760)
   || (8192 <=? c) && (c <=? 8202)
   || (c =? 8232) || (c =? 8233) || (c =? 8239) || (c =? 8287)
   || (c =? 12288))%N.

(** The line boundaries recognised by [str.splitlines]. *)
Definition is_linebreak (c : char) : bool :=
  ((10 <=? c) && (c <=? 13) || (28 <=? c) && (c <=? 30)
   || (c =? 133) || (c =? 8232) || (c =? 8233))%N.

Fixpoint lstrip (s : str) : str :=
  match s with
  | [] => []
  | c :: t => if isspace c then lstrip t else s
  end.

Definition rstrip (s : str) : str := rev (lstrip (rev s)).

(** [s.strip()] *)
Definition strip (s : str) : str := rstrip (lstrip s).

(** [s.startswith(p)] *)
Fixpoint startswith (p s : str) : bool :=
  match p, s with
  | [], _ => true
  | _ :: _, [] => false
  | a :: p', b :: s' => (a =? b)%N && startswith p' s'
  end.

(** [c in s] for a one-character [c]. *)
Definition contains (c : char) (s : str) : bool := existsb (N.eqb c) s.

(** [s.split(c, 1)] for a one-character separator that occurs in [s]:
    the text before the first separator and the text after it.  When the
    separator is absent Python returns a one-element list; the program
    only unpacks the result after testing [c in s]. *)
Fixpoint split_once (c : char) (s : str) : str * str :=
  match s with
  | [] => ([], [])
  | x :: t =>
      if (x =? c)%N then ([], t)
      else let '(a, b) := split_once c t in (x :: a, b)
  end.

(** [sep.join(ls)] *)
Fixpoint join (sep : str) (ls : list str) : str :=
  match ls with
  | [] => []
  | [l] => l
  | l :: rest => l ++ sep ++ join sep rest
  end.

(** [s.splitlines()]: a line ends at a line boundary, CR LF counts as one
    boundary, and no empty line is produced after the final boundary. *)
Fixpoint splitlines (s : str) : list str :=
  match s with
  | [] => []
  | c :: t =>
      if is_linebreak c then
        [] :: (if (c =? CR)%N
               then match t with
                    | c' :: t' => if (c' =? LF)%N then splitlines t' else splitlines t
                    | [] => []
                    end
               else splitlines t)
      else
        match splitlines t with
        | [] => [[c]]
        | l :: ls => (c :: l) :: ls
        end
  end.

(** Reading a file in text mode translates CR LF and a lone CR to LF. *)
Fixpoint universal_newlines (s : str) : str :=
  match s with
  | [] => []
  | c :: t =>
      if (c =? CR)%N then
        LF :: match t with
              | c' :: t' => if (c' =? LF)%N then universal_newlines t'
                            else universal_newlines t
              | [] => []
              end
      else c :: universal_newlines t
  end.

(** [str(n)] and [f"{n}"] for an [int]: decimal digits, with a minus sign
    for a negative number. *)
Fixpoint str_of_uint (d : Decimal.uint) : str :=
  match d with
  | Nil => []
  | D0 d => 48%N :: str_of_uint d
  | D1 d => 49%N :: str_of_uint d
  | D2 d => 50%N :: str_of_uint d
  | D3 d => 51%N :: str_of_uint d
  | D4 d => 52%N :: str_of_uint d
  | D5 d => 53%N :: str_of_uint d
  | D6 d => 54%N :: str_of_uint d
  | D7 d => 55%N :: str_of_uint d
  | D8 d => 56%N :: str_of_uint d
  | D9 d => 57%N :: str_of_uint d
  end.

Definition str_of_int (z : Z) : str :=
  match Z.to_int z with
  | Decimal.Pos d => str_of_uint d
  | Decimal.Neg d => 45%N :: str_of_uint d
  end.

(** [s.lower()].  On ASCII text it maps [A-Z] to [a-z] and nothing else;
    on other text Python applies the Unicode case mapping, which is left
    to the function [unicode_lower]. *)
Definition is_ascii (c : char) : bool := (c <? 128)%N.

Definition ascii_lower (c : char) : char :=
  if ((65 <=? c) && (c <=? 90))%N then (c + 32)%N else c.

Definition lower (unicode_lower : str -> str) (s : str) : str :=
  if forallb is_ascii s then map ascii_lower s else unicode_lower s.

End Text.

Import Text.

(* ===================================================================== *)
(** * The Python runtime: exceptions, files, streams *)
(* ===================================================================== *)

(** Subclasses of [OSError] raised by the file operations used here. *)
Inductive os_error :=
  | FileExistsError
  | FileNotFoundError
  | NotADirectoryError
  | IsADirectoryError.

(** What [socket.getaddrinfo] can raise: [socket.gaierror], or an error of
    another class (for instance [UnicodeError] from the IDNA codec). *)
Inductive net_error :=
  | gaierror
  | other_net_error.

Inductive exn :=
  | SystemExit (code : Z)
  | OSError (e : os_error)
  | NetError (e : net_error).

Inductive outcome (A : Type) :=
  | Return (a : A)
  | Raise (e : exn).
Arguments Return {A} a.
Arguments Raise {A} e.

(** Exit status of the interpreter when a run of the program ends with
    [o]: the code of an uncaught [SystemExit], 1 for any other uncaught
    exception. *)
Definition exit_status {A} (o : outcome A) : Z :=
  match o with
  | Return _ => 0
  | Raise (SystemExit code) => code
  | Raise _ => 1
  end.

(** A path is the list of its components, innermost first, so that
    [a/b/c] is [["c"; "b"; "a"]] and [Path.parent] is the tail.  The empty
    path is the anchor (the root or the working directory), which is its
    own parent and always a directory. *)
Definition path := list string.

Definition parent (p : path) : path := tail p.

Inductive node :=
  | Dir
  | File (content : str).

Abbreviation fs := (gmap path node).

Definition stat (m : fs) (p : path) : option node :=
  match p with
  | [] => Some Dir
  | _ => m !! p
  end.

Definition is_dir (m : fs) (p : path) : bool :=
  match stat m p with
  | Some Dir => true
  | _ => false
  end.

(** Every entry sits in a directory. *)
Definition fs_wf (m : fs) : Prop :=
  forall p n, m !! p = Some n -> stat m (parent p) = Some Dir.

(** The proper ancestors of a path, nearest first. *)
Fixpoint ancestors (p : path) : list path :=
  match p with
  | [] => []
  | _ :: up => up :: ancestors up
  end.

Inductive level := INFO | WARNING | ERROR.

(** What the process emits: a logger record, or text written to one of
    the standard streams. *)
Inductive event :=
  | Log (lvl : level) (msg : str)
  | Stderr (text : str)
  | Stdout (text : str).

(** One pending read of standard input: a line (without its newline), for
    which [input()] returns it, or an interrupt arriving during the read,
    for which [input()] raises [KeyboardInterrupt].  On an exhausted list
    [input()] raises [EOFError]. *)
Inductive stdin_item :=
  | Line (s : str)
  | Interrupt.

Record world := World {
  w_fs : fs;
  w_stdin : list stdin_item;
  w_isatty : bool;
  w_trace : list event
}.

Definition set_fs (m : fs) (w : world) : world :=
  World m (w_stdin w) (w_isatty w) (w_trace w).

Definition set_stdin (i : list stdin_item) (w : world) : world :=
  World (w_fs w) i (w_isatty w) (w_trace w).

Definition emit (e : event) (w : world) : world :=
  World (w_fs w) (w_stdin w) (w_isatty w) (w_trace w ++ [e]).

(** The text written to standard output so far. *)
Fixpoint stdout_of (t : list event) : list str :=
  match t with
  | [] => []
  | Stdout s :: t' => s :: stdout_of t'
  | _ :: t' => stdout_of t'
  end.

(** ** The effect monad: state passing with exceptions *)

Definition M (A : Type) : Type := world -> outcome A * world.

Definition ret {A} (a : A) : M A := fun w => (Return a, w).

Definition raise {A} (e : exn) : M A := fun w => (Raise e, w).

Definition bind {A B} (c : M A) (k : A -> M B) : M B :=
  fun w =>
    match c w with
    | (Return a, w') => k a w'
    | (Raise e, w') => (Raise e, w')
    end.

Declare Scope py_scope.
Delimit Scope py_scope with py.
Notation "x <- c ;; k" := (bind c (fun x => k))
  (at level 100, c at level 99, k at level 200, right associativity,
   only parsing) : py_scope.
Notation "c ;; k" := (bind c (fun _ => k))
  (at level 100, k at level 200, right associativity, only parsing) : py_scope.
#[local] Open Scope py_scope.

(** [logger.info], [logger.warning], [logger.error] *)
Definition log (lvl : level) (msg : str) : M unit :=
  fun w => (Return tt, emit (Log lvl msg) w).

(** [print(text, end=..., file=sys.stderr)] with the terminator included
    in [text]. *)
Definition print_stderr (text : str) : M unit :=
  fun w => (Return tt, emit (Stderr text) w).

(** [print(text)] *)
Definition print (text : str) : M unit :=
  fun w => (Return tt, emit (Stdout (text ++ [LF])) w).

(** [sys.stdin.isatty()] *)
Definition isatty : M bool := fun w => (Return (w_isatty w), w).

(** The effect of one [input()] call on the pending standard input: the
    item read is gone and [rest] remains. *)
Definition consume (rest : list stdin_item) : M unit :=
  fun w => (Return tt, set_stdin rest w).

(** ** File operations

    They act on the file system alone: [FS A] is a computation over [fs],
    and [on_fs] runs it inside the process. *)

Definition FS (A : Type) : Type := fs -> outcome A * fs.

Definition on_fs {A} (c : FS A) : M A :=
  fun w => let '(r, m) := c (w_fs w) in (r, set_fs m w).

(** [os.mkdir(d)] *)
Definition os_mkdir (d : path) : FS unit :=
  fun m =>
    match stat m d with
    | Some _ => (Raise (OSError FileExistsError), m)
    | None =>
        match stat m (parent d) with
        | None => (Raise (OSError FileNotFoundError), m)
        | Some (File _) => (Raise (OSError NotADirectoryError), m)
        | Some Dir => (Return tt, <[d := Dir]> m)
        end
    end.

(** [d.mkdir(parents=False, exist_ok=True)] *)
Definition mkdir_exist_ok (d : path) : FS unit :=
  fun m =>
    match os_mkdir d m with
    | (Raise (OSError FileNotFoundError), m') =>
        (Raise (OSError FileNotFoundError), m')
    | (Raise (OSError e), m') =>
        if is_dir m' d then (Return tt, m') else (Raise (OSError e), m')
    | r => r
    end.

(** [d.mkdir(parents=True, exist_ok=True)], as [pathlib] implements it:
    try [os.mkdir]; when the parent is missing create it the same way and
    retry; any other [OSError] is ignored when [d] is a directory. *)
Fixpoint mkdir_parents (d : path) : FS unit :=
  fun m =>
    match os_mkdir d m with
    | (Raise (OSError FileNotFoundError), m') =>
        match d with
        | [] => (Raise (OSError FileNotFoundError), m')
        | _ :: up =>
            match mkdir_parents up m' with
            | (Return _, m'') => mkdir_exist_ok d m''
            | failed => failed
            end
        end
    | (Raise (OSError e), m') =>
        if is_dir m' d then (Return tt, m') else (Raise (OSError e), m')
    | r => r
    end.

(** [p.exists()] *)
Definition path_exists (p : path) : FS bool :=
  fun m => (Return (bool_decide (is_Some (stat m p))), m).

(** [p.read_text(encoding="utf-8")].  File contents are kept as decoded
    text; reading applies the universal-newlines translation. *)
Definition read_text (p : path) : FS str :=
  fun m =>
    match stat m p with
    | Some (File content) => (Return (universal_newlines content), m)
    | Some Dir => (Raise (OSError IsADirectoryError), m)
    | None => (Raise (OSError FileNotFoundError), m)
    end.

(** [p.write_text(data, encoding="utf-8")] on a platform whose line
    separator is LF: the file is created or truncated and holds [data]. *)
Definition write_text (p : path) (data : str) : FS unit :=
  fun m =>
    match stat m p with
    | Some Dir => (Raise (OSError IsADirectoryError), m)
    | _ =>
        match stat m (parent p) with
        | Some Dir => (Return tt, <[p := File data]> m)
        | Some (File _) => (Raise (OSError NotADirectoryError), m)
        | None => (Raise (OSError FileNotFoundError), m)
        end
    end.

(** One entry of the list [socket.getaddrinfo] returns. *)
Record addrinfo := AddrInfo {
  ai_family : Z;
  ai_socktype : Z;
  ai_proto : Z;
  ai_sockaddr : str * Z
}.

(** What the program takes from outside its source file: the resolver and
    the network, the Unicode case tables, the home-directory expansion of
    [Path.expanduser], and the names imported from [config]. *)
Record environment := Environment {
  getaddrinfo : str -> Z -> list addrinfo + net_error;
  connect_ex : addrinfo -> Z;
  unicode_lower : str -> str;
  expanduser : path -> path;
  ENV_FILE : path;
  HOST : option str;
  PORT : Z
}.

(* ===================================================================== *)
(** * The program *)
(* ===================================================================== *)

Section Program.

Variable env : environment.

(** ** Port probe *)

Definition _iter_hosts_for_port_check (host : option str) : list str :=
  match host with
  | None => [lit "127.0.0.1"]
  | Some h =>
      if str_eqb h (lit "0.0.0.0") || str_eqb h [] then [lit "127.0.0.1"]
      else if str_eqb h (lit "::") || str_eqb h (lit "::0") then [lit "::1"]
      else [h]
  end.

(** The inner [for] of [is_port_in_use]: connect to each resolved address
    in turn; [true] as soon as one [connect_ex] returns 0. *)
Fixpoint connect_any (addr_info_list : list addrinfo) : bool :=
  match addr_info_list with
  | [] => false
  | ai :: rest => if connect_ex env ai =? 0 then true else connect_any rest
  end.

(** The outer [for] of [is_port_in_use] over the candidates. *)
Fixpoint probe_candidates (candidates : list str) (port : Z) : M bool :=
  match candidates with
  | [] => ret false
  | candidate :: rest =>
      match getaddrinfo env candidate port with
      | inr gaierror =>
          log WARNING (lit "无法解析主机地址 " ++ candidate ++ lit "，跳过端口检查") ;;
          probe_candidates rest port
      | inr e => raise (NetError e)
      | inl addr_info_list =>
          if connect_any addr_info_list then ret true
          else probe_candidates rest port
      end
  end.

Definition is_port_in_use (host : option str) (port : Z) : M bool :=
  probe_candidates (_iter_hosts_for_port_check host) port.

(** ** Port negotiation *)

Definition prompt_text (port : Z) : str :=
  lit "端口 " ++ str_of_int port ++ lit " 已被占用，是否尝试使用端口 "
    ++ str_of_int (port + 1) ++ lit "? [y/n]: ".

Section Negotiation.

Variable host : option str.
Variable initial_port : Z.

(** The head of the outer loop (source lines 57 to 66): probe [port];
    return it when free, give up when standard input is not a terminal,
    and otherwise enter the prompt loop [ask]. *)
Definition check_port (ask : Z -> M Z) (port : Z) : M Z :=
  in_use <- is_port_in_use host port ;;
  if negb in_use then
    (if negb (port =? initial_port)
     then log WARNING (lit "端口 " ++ str_of_int initial_port
                         ++ lit " 已被占用，改为使用端口 " ++ str_of_int port)
     else ret tt) ;;
    ret port
  else
    log WARNING (lit "端口 " ++ str_of_int port ++ lit " 已被占用") ;;
    tty <- isatty ;;
    if negb tty then
      log ERROR (lit "当前环境不可交互确认端口切换，操作已取消") ;;
      raise (SystemExit 1)
    else ask port.

(** The prompt loop (source lines 68 to 84) with [inp] pending on
    standard input.  The read of line 72 takes the first item of [inp];
    end of input and an interrupt are the two exceptions the [try]
    catches.  On [y] the loop is left and control is back at the head of
    the outer loop with [port + 1]. *)
Fixpoint prompt_loop (inp : list stdin_item) (port : Z) : M Z :=
  print_stderr (prompt_text port) ;;
  match inp with
  | [] =>
      log ERROR (lit "未能获取用户输入，操作已取消") ;;
      raise (SystemExit 1)
  | Interrupt :: rest =>
      consume rest ;;
      log ERROR (lit "未能获取用户输入，操作已取消") ;;
      raise (SystemExit 1)
  | Line s :: rest =>
      consume rest ;;
      let choice := lower (unicode_lower env) (strip s) in
      if str_eqb choice (lit "y") then
        check_port (prompt_loop rest) (port + 1)
      else if str_eqb choice (lit "n") then
        log ERROR (lit "用户拒绝更换端口，操作已取消") ;;
        raise (SystemExit 1)
      else
        print_stderr (lit "请输入 'y' 或 'n'" ++ [LF]) ;;
        prompt_loop rest port
  end.

End Negotiation.

Definition prompt_for_available_port (host : option str) (initial_port : Z)
  : M Z :=
  fun w => check_port host initial_port
             (prompt_loop host initial_port (w_stdin w)) initial_port w.

(** ** Env file update *)

Definition _resolve_env_path (env_path : option path) : path :=
  match env_path with
  | Some p => expanduser env p
  | None => ENV_FILE env
  end.

Definition EQ : char := 61%N.

(** How the scan of the lines ends: by [return False], by [break] at an
    index, or by running off the end of the list. *)
Inductive scan_exit :=
  | ReturnFalse
  | Break (idx : nat)
  | Exhausted.

(** The [for idx, line in enumerate(lines)] loop, entered at [idx] with
    [lines] still to visit. *)
Fixpoint scan_lines (key new_assignment : str) (idx : nat) (lines : list str)
  : scan_exit :=
  match lines with
  | [] => Exhausted
  | line :: rest =>
      let stripped := strip line in
      if str_eqb stripped [] || startswith (lit "#") stripped
         || negb (contains EQ stripped)
      then scan_lines key new_assignment (S idx) rest
      else
        let '(existing_key, _) := split_once EQ stripped in
        if str_eqb (strip existing_key) key then
          if str_eqb (strip line) new_assignment then ReturnFalse
          else Break idx
        else scan_lines key new_assignment (S idx) rest
  end.

Definition update_env_port (port : Z) (env_path : option path) : M bool :=
  let path := _resolve_env_path env_path in
  on_fs (mkdir_parents (parent path)) ;;
  let key := lit "PORT" in
  let new_assignment := key ++ lit "=" ++ str_of_int port in
  present <- on_fs (path_exists path) ;;
  lines <- (if present
            then text <- on_fs (read_text path) ;; ret (splitlines text)
            else ret []) ;;
  match scan_lines key new_assignment 0 lines with
  | ReturnFalse => ret false
  | found =>
      let lines :=
        match found with
        | Break idx => <[idx := new_assignment]> lines
        | _ => lines ++ [new_assignment]
        end in
      on_fs (write_text path (join [LF] lines ++ [LF])) ;;
      log INFO (lit ".env 中的 " ++ key ++ lit " 已更新为 " ++ str_of_int port) ;;
      ret true
  end.

(** ** Command line entry *)

(** [str(host)] for the value printed by [main]. *)
Definition str_of_host (host : option str) : str :=
  match host with
  | Some h => h
  | None => lit "None"
  end.

Definition main : M unit :=
  let host := HOST env in
  let initial_port := PORT env in
  port <- prompt_for_available_port host initial_port ;;
  changed <- update_env_port port None ;;
  print (str_of_host host) ;;
  print (str_of_int port) ;;
  print (if changed then lit "1" else lit "0").

End Program.

(* ===================================================================== *)
(** * Vocabulary of the properties *)
(* ===================================================================== *)

(** A line holds no line boundary; a word holds no white space. *)
Definition is_line (l : str) : Prop := Forall (fun c => is_linebreak c = false) l.

Definition is_word (s : str) : Prop := Forall (fun c => isspace c = false) s.

(** The text [update_env_port] writes for the lines [ls]. *)
Definition file_text (ls : list str) : str := join [LF] ls ++ [LF].

(** The line is an entry of the env file with key [PORT]: once stripped
    it is not blank, is no comment, has a separator, and the stripped text
    left of the first separator is [PORT]. *)
Definition is_port_entry (line : str) : bool :=
  let stripped := strip line in
  negb (str_eqb stripped [] || startswith (lit "#") stripped
        || negb (contains EQ stripped))
  && str_eqb (strip (fst (split_once EQ stripped))) (lit "PORT").

(** The assignment the program writes for [port]. *)
Definition assignment (port : Z) : str :=
  lit "PORT" ++ lit "=" ++ str_of_int port.

(** The lines [update_env_port] works on when the file system is [m]. *)
Definition env_lines (m : fs) (p : path) : list str :=
  match stat m p with
  | Some (File content) => splitlines (universal_newlines content)
  | _ => []
  end.

Definition port_entries (lines : list str) : list str :=
  List.filter is_port_entry lines.

Definition other_lines (lines : list str) : list str :=
  List.filter (fun l => negb (is_port_entry l)) lines.

(** [m'] is [m] with some directories added, all among [d] and its
    ancestors. *)
Definition extends (d : path) (m m' : fs) : Prop :=
  forall p, stat m' p = stat m p
            \/ (stat m p = None /\ stat m' p = Some Dir /\ p ∈ d :: ancestors d).

(** The lines written when the scan does not end in [return False]. *)
Definition updated_lines (port : Z) (lines : list str) : list str :=
  match scan_lines (lit "PORT") (assignment port) 0 lines with
  | Break idx => <[idx := assignment port]> lines
  | _ => lines ++ [assignment port]
  end.

(** The record logged after a write. *)
Definition update_log (port : Z) : event :=
  Log INFO (lit ".env 中的 " ++ lit "PORT" ++ lit " 已更新为 " ++ str_of_int port).

(** The world after a write of [lines] to [p], on top of the file system
    [m] left by the directory creation. *)
Definition written (port : Z) (p : path) (lines : list str) (m : fs) (w : world)
  : world :=
  emit (update_log port) (set_fs (<[p := File (file_text lines)]> m) w).

(** Every list of lines falls in one of three classes with respect to the
    assignment for [port]. *)
Inductive scan_case (port : Z) (lines : list str) : Prop :=
  | case_absent :
      Forall (fun l => is_port_entry l = false) lines -> scan_case port lines
  | case_already (pre : list str) (line : str) (post : list str) :
      lines = pre ++ line :: post -> Forall (fun l => is_port_entry l = false) pre ->
      is_port_entry line = true -> strip line = assignment port ->
      scan_case port lines
  | case_differs (pre : list str) (line : str) (post : list str) :
      lines = pre ++ line :: post -> Forall (fun l => is_port_entry l = false) pre ->
      is_port_entry line = true -> strip line <> assignment port ->
      scan_case port lines.

(** A host on which every name resolves to one address and exactly the
    ports in [taken] accept connections (the others refuse, errno 111). *)
Definition host_with (taken : list Z) : environment :=
  {| getaddrinfo := fun h p => inl [AddrInfo 2 1 6 (h, p)];
     connect_ex := fun ai => if bool_decide (snd (ai_sockaddr ai) ∈ taken)
                             then 0 else 111;
     unicode_lower := fun s => s;
     expanduser := fun p => p;
     ENV_FILE := [".env"%string];
     HOST := Some (lit "0.0.0.0");
     PORT := 8000 |}.

(** A process on a terminal with [inp] pending, an empty trace and the
    file system [m]. *)
Definition console (m : fs) (inp : list stdin_item) : world :=
  World m inp true [].

(** A file system holding only [.env] with the given text. *)
Definition dotenv (content : str) : fs :=
  {[ [".env"%string] := File content ]}.

(** The env file invariant in the words of the specification: at most
    one [PORT] entry, and a text that ends with exactly one newline. *)
Definition ends_with_one_newline (content : str) : bool :=
  match rev content with
  | c :: rest =>
      (c =? LF)%N
      && negb (match rest with c' :: _ => (c' =? LF)%N | [] => false end)
  | [] => false
  end.

Definition envfile_invariant (m : fs) (p : path) : Prop :=
  exists content,
    stat m p = Some (File content)
    /\ (length (port_entries (splitlines (universal_newlines content))) <= 1)%nat
    /\ ends_with_one_newline content = true.

(** [w] with the events [es] added to its trace. *)
Definition append_trace (es : list event) (w : world) : world :=
  World (w_fs w) (w_stdin w) (w_isatty w) (w_trace w ++ es).

(** The warning logged for a candidate that does not resolve. *)
Definition unresolved_warning (candidate : str) : event :=
  Log WARNING (lit "无法解析主机地址 " ++ candidate ++ lit "，跳过端口检查").

(** The warning logged when a port other than the initial one is chosen. *)
Definition substitution_warning (initial_port port : Z) : event :=
  Log WARNING (lit "端口 " ++ str_of_int initial_port
                 ++ lit " 已被占用，改为使用端口 " ++ str_of_int port).

(** The answer [item] gives to the prompt is an accepting [y]. *)
Definition accepts (env : environment) (item : stdin_item) : bool :=
  match item with
  | Line s => str_eqb (lower (unicode_lower env) (strip s)) (lit "y")
  | Interrupt => false
  end.

Definition is_gaierror {A} (r : A + net_error) : bool :=
  match r with
  | inr gaierror => true
  | _ => false
  end.

(** The other records and texts the negotiation emits. *)
Definition busy_warning (port : Z) : event :=
  Log WARNING (lit "端口 " ++ str_of_int port ++ lit " 已被占用").

Definition no_tty_error : event :=
  Log ERROR (lit "当前环境不可交互确认端口切换，操作已取消").

Definition no_input_error : event :=
  Log ERROR (lit "未能获取用户输入，操作已取消").

Definition declined_error : event :=
  Log ERROR (lit "用户拒绝更换端口，操作已取消").

Definition retry_hint : event :=
  Stderr (lit "请输入 'y' 或 'n'" ++ [LF]).

(** [w'] has the files and the terminal of [w] and no more text on
    standard output. *)
Definition quiet (w w' : world) : Prop :=
  w_fs w' = w_fs w
  /\ w_isatty w' = w_isatty w
  /\ stdout_of (w_trace w') = stdout_of (w_trace w).

(** How a negotiation that started at [port] may end: on a port reached
    by one step per accepted prompt, past occupied ports only, or by an
    exit with status 1 or an error of the resolver. *)
Definition ends_well (env : environment) (host : option str) (port : Z)
    (consumed : list stdin_item) (r : outcome Z) : Prop :=
  match r with
  | Return p =>
      p = port + Z.of_nat (length (List.filter (accepts env) consumed))
      /\ (forall q, port <= q < p ->
            forall w, fst (is_port_in_use env host q w) = Return true)
      /\ (forall w, fst (is_port_in_use env host p w) = Return false)
  | Raise e => e = SystemExit 1 \/ exists n, e = NetError n
  end.

(** A resolver that knows no name at all. *)
Definition no_dns : environment :=
  {| getaddrinfo := fun _ _ => inr gaierror;
     connect_ex := fun _ => 0;
     unicode_lower := fun s => s;
     expanduser := fun p => p;
     ENV_FILE := [".env"%string];
     HOST := Some (lit "db.internal");
     PORT := 5432 |}.

(** The probe of [host] dials [c]: what [is_port_in_use] does is decided
    by the resolver's answer for [c] and the port.  On a list of addresses
    it reports whether one of them accepts the connection; on
    [socket.gaierror] it warns about [c] and reports the port free; any
    other error of the resolver is raised. *)
Definition dials (env : environment) (host : option str) (port : Z) (c : str)
  : Prop :=
  forall w,
    is_port_in_use env host port w =
      match getaddrinfo env c port with
      | inl l => (Return (existsb (fun ai => connect_ex env ai =? 0) l), w)
      | inr gaierror => (Return false, emit (unresolved_warning c) w)
      | inr e => (Raise (NetError e), w)
      end.

(** A resolver that rejects every name with an error other than
    [socket.gaierror]. *)
Definition bad_names : environment :=
  {| getaddrinfo := fun _ _ => inr other_net_error;
     connect_ex := fun _ => 0;
     unicode_lower := fun s => s;
     expanduser := fun p => p;
     ENV_FILE := [".env"%string];
     HOST := Some (lit "bad name");
     PORT := 80 |}.

(** The item is an answer the prompt loop acts on: [y], [n] (after
    stripping and lowering) or an interrupt.  Any other line only makes
    the loop ask again. *)
Definition is_answer (env : environment) (item : stdin_item) : bool :=
  match item with
  | Line s =>
      let choice := lower (unicode_lower env) (strip s) in
      str_eqb choice (lit "y") || str_eqb choice (lit "n")
  | Interrupt => true
  end.

(** The first [PORT] entry of [lines] reads, stripped, [PORT=<port>]. *)
Definition first_port_entry_is (port : Z) (lines : list str) : Prop :=
  exists pre line post,
    lines = pre ++ line :: post
    /\ Forall (fun l => is_port_entry l = false) pre
    /\ strip line = assignment port.

(* ===================================================================== *)
(** * Facts about text *)
(* ===================================================================== *)

Module TextFacts.

Lemma linebreak_isspace c : is_linebreak c = true -> isspace c = true.
Proof.
  unfold is_linebreak, isspace. intros H.
  repeat (apply orb_prop in H as [H|H]);
    repeat (apply andb_prop in H as [? ?]);
    repeat match goal with
           | E : (_ <=? _)%N = true |- _ => apply N.leb_le in E
           | E : (_ =? _)%N = true |- _ => apply N.eqb_eq in E
           end;
    repeat (apply orb_true_intro;
            first [ right; apply N.eqb_eq; lia
                  | right; apply andb_true_intro; split; apply N.leb_le; lia
                  | left ]);
    try (apply andb_true_intro; split; apply N.leb_le; lia).
Qed.

Lemma word_is_line s : is_word s -> is_line s.
Proof.
  intros H. eapply Forall_impl; [exact H|]. intros c Hc.
  destruct (is_linebreak c) eqn:E; [|reflexivity].
  apply linebreak_isspace in E. congruence.
Qed.

Lemma is_word_app a b : is_word a -> is_word b -> is_word (a ++ b).
Proof. intros; apply Forall_app; auto. Qed.

Lemma lstrip_head c t : isspace c = false -> lstrip (c :: t) = c :: t.
Proof. intros H; simpl; now rewrite H. Qed.

Lemma lstrip_word s : is_word s -> lstrip s = s.
Proof. destruct 1; [reflexivity | now apply lstrip_head]. Qed.

Lemma strip_word s : is_word s -> strip s = s.
Proof.
  intros H. unfold strip, rstrip. rewrite (lstrip_word s H).
  rewrite lstrip_word, rev_involutive; [reflexivity|].
  unfold is_word. now apply Forall_rev.
Qed.

Lemma str_of_uint_word d : is_word (str_of_uint d).
Proof. induction d; simpl; constructor; auto. Qed.

Lemma str_of_int_word z : is_word (str_of_int z).
Proof.
  unfold str_of_int. destruct (Z.to_int z); [|constructor; [reflexivity|]];
    apply str_of_uint_word.
Qed.

Lemma str_eqb_eq a b : str_eqb a b = true <-> a = b.
Proof. unfold str_eqb. apply bool_decide_eq_true. Qed.

Lemma str_eqb_neq a b : str_eqb a b = false <-> a <> b.
Proof. unfold str_eqb. apply bool_decide_eq_false. Qed.

Lemma str_eqb_refl a : str_eqb a a = true.
Proof. now apply str_eqb_eq. Qed.

(** ** Lines *)

Lemma universal_newlines_id s :
  Forall (fun c => c <> CR) s -> universal_newlines s = s.
Proof.
  induction 1 as [|c t Hc _ IH]; [reflexivity|]. simpl.
  apply N.eqb_neq in Hc. rewrite Hc. now rewrite IH.
Qed.

Lemma line_no_CR l : is_line l -> Forall (fun c => c <> CR) l.
Proof. intros H. eapply Forall_impl; [exact H|]. intros c Hc ->. discriminate. Qed.

Lemma splitlines_cons_line l rest :
  is_line l -> splitlines (l ++ LF :: rest) = l :: splitlines rest.
Proof.
  induction 1 as [|c t Hc _ IH]; [reflexivity|].
  cbn [app splitlines]. now rewrite Hc, IH.
Qed.

Lemma file_text_cons l ls :
  ls <> [] -> file_text (l :: ls) = l ++ LF :: file_text ls.
Proof.
  unfold file_text. destruct ls as [|l' ls']; [congruence|]. intros _.
  cbn [join]. now rewrite <- !app_assoc.
Qed.

Lemma file_text_no_CR ls :
  Forall is_line ls -> Forall (fun c => c <> CR) (file_text ls).
Proof.
  unfold file_text. intros H. apply Forall_app. split; [|repeat constructor; discriminate].
  induction H as [|l ls Hl _ IH]; [constructor|].
  destruct ls; cbn [join]; [now apply line_no_CR|].
  apply Forall_app; split; [now apply line_no_CR|].
  constructor; [discriminate | exact IH].
Qed.

Lemma splitlines_file_text ls :
  ls <> [] -> Forall is_line ls -> splitlines (file_text ls) = ls.
Proof.
  intros Hne H. induction H as [|l ls Hl Hls IH]; [congruence|].
  destruct ls as [|l' ls'].
  - unfold file_text; cbn [join]. now rewrite splitlines_cons_line.
  - rewrite file_text_cons by congruence.
    rewrite splitlines_cons_line by assumption. now rewrite IH.
Qed.

(** What a later read of the written text yields: the lines again. *)
Lemma read_back ls :
  ls <> [] -> Forall is_line ls ->
  splitlines (universal_newlines (file_text ls)) = ls.
Proof.
  intros Hne H. rewrite universal_newlines_id by now apply file_text_no_CR.
  now apply splitlines_file_text.
Qed.

Lemma splitlines_lines_le n : forall s, (length s <= n)%nat -> Forall is_line (splitlines s).
Proof.
  induction n as [|n IH]; intros [|c t] Hlen; simpl in Hlen; try (constructor || lia).
  cbn [splitlines]. destruct (is_linebreak c) eqn:Hc.
  - constructor; [constructor|].
    destruct (c =? CR)%N; [|apply IH; lia].
    destruct t as [|c' t']; [constructor|].
    destruct (c' =? LF)%N; apply IH; simpl in *; lia.
  - assert (Ht : Forall is_line (splitlines t)) by (apply IH; lia).
    destruct (splitlines t) as [|l ls]; [repeat constructor; assumption|].
    inversion Ht; subst. constructor; [constructor|]; assumption.
Qed.

Lemma splitlines_lines s : Forall is_line (splitlines s).
Proof. now apply (splitlines_lines_le (length s)). Qed.

End TextFacts.

Import TextFacts.

(* ===================================================================== *)
(** * Facts about the scan of the env file *)
(* ===================================================================== *)

Section Scan.

Variable new_assignment : str.

#[local] Abbreviation scan := (scan_lines (lit "PORT") new_assignment).

Lemma scan_skip line rest idx :
  is_port_entry line = false ->
  scan idx (line :: rest) = scan (S idx) rest.
Proof.
  unfold scan, is_port_entry. cbn [scan_lines]. cbv zeta.
  destruct (str_eqb (strip line) [] || startswith (lit "#") (strip line)
            || negb (contains EQ (strip line))); [reflexivity|].
  destruct (split_once EQ (strip line)) as [k v]. cbn [negb andb fst].
  now intros ->.
Qed.

Lemma scan_hit line rest idx :
  is_port_entry line = true ->
  scan idx (line :: rest) =
    if str_eqb (strip line) new_assignment then ReturnFalse else Break idx.
Proof.
  unfold scan, is_port_entry. cbn [scan_lines]. cbv zeta.
  destruct (str_eqb (strip line) [] || startswith (lit "#") (strip line)
            || negb (contains EQ (strip line))); [discriminate|].
  destruct (split_once EQ (strip line)) as [k v]. cbn [negb andb fst].
  now intros ->.
Qed.

Lemma scan_none lines idx :
  Forall (fun l => is_port_entry l = false) lines -> scan idx lines = Exhausted.
Proof.
  intros H. revert idx. induction H as [|l ls Hl _ IH]; intros idx; [reflexivity|].
  rewrite scan_skip by assumption. apply IH.
Qed.

Lemma scan_first pre line post idx :
  Forall (fun l => is_port_entry l = false) pre ->
  is_port_entry line = true ->
  scan idx (pre ++ line :: post) =
    if str_eqb (strip line) new_assignment then ReturnFalse
    else Break (idx + length pre).
Proof.
  intros Hpre Hline. revert idx.
  induction Hpre as [|l ls Hl _ IH]; intros idx; cbn [app length].
  - rewrite scan_hit by assumption. now rewrite Nat.add_0_r.
  - rewrite scan_skip by assumption. rewrite IH.
    now replace (S idx + length ls)%nat with (idx + S (length ls))%nat by lia.
Qed.

End Scan.

(** Either no line is a [PORT] entry, or there is a first one. *)
Lemma first_port_entry lines :
  Forall (fun l => is_port_entry l = false) lines
  \/ exists pre line post,
       lines = pre ++ line :: post
       /\ Forall (fun l => is_port_entry l = false) pre
       /\ is_port_entry line = true.
Proof.
  induction lines as [|l ls IH]; [left; constructor|].
  destruct (is_port_entry l) eqn:E.
  - right. exists [], l, ls. repeat split; [constructor | assumption].
  - destruct IH as [IH | (pre & line & post & -> & Hpre & Hline)].
    + left. now constructor.
    + right. exists (l :: pre), line, post. repeat split; auto.
Qed.

Lemma lit_PORT : lit "PORT" = [80; 79; 82; 84]%N.
Proof. reflexivity. Qed.

Lemma lit_EQ : lit "=" = [EQ].
Proof. reflexivity. Qed.

Lemma assignment_word port : is_word (assignment port).
Proof.
  unfold assignment. rewrite lit_PORT, lit_EQ.
  repeat (apply is_word_app); try apply str_of_int_word;
    repeat constructor.
Qed.

Lemma strip_assignment port : strip (assignment port) = assignment port.
Proof. apply strip_word, assignment_word. Qed.

Lemma assignment_is_line port : is_line (assignment port).
Proof. apply word_is_line, assignment_word. Qed.

Lemma assignment_is_port_entry port : is_port_entry (assignment port) = true.
Proof.
  unfold is_port_entry. rewrite strip_assignment.
  unfold assignment. rewrite lit_PORT, lit_EQ. cbn [app].
  change (split_once EQ (80 :: 79 :: 82 :: 84 :: EQ :: str_of_int port)%N)
    with ([80; 79; 82; 84]%N, str_of_int port).
  cbn [fst]. rewrite strip_word by (repeat constructor). reflexivity.
Qed.

Lemma other_lines_app a b : other_lines (a ++ b) = other_lines a ++ other_lines b.
Proof. apply List.filter_app. Qed.

Lemma port_entries_app a b : port_entries (a ++ b) = port_entries a ++ port_entries b.
Proof. apply List.filter_app. Qed.

Lemma port_entries_none pre :
  Forall (fun l => is_port_entry l = false) pre -> port_entries pre = [].
Proof.
  induction 1 as [|l ls Hl _ IH]; [reflexivity|].
  unfold port_entries in *. cbn [List.filter]. now rewrite Hl.
Qed.

(* ===================================================================== *)
(** * Facts about the file system *)
(* ===================================================================== *)

Lemma stat_insert_eq (m : fs) (p : path) (n : node) : p <> [] -> stat (<[p := n]> m) p = Some n.
Proof. destruct p; [congruence|]. intros _. apply lookup_insert_eq. Qed.

Lemma stat_insert_ne (m : fs) (p q : path) (n : node) : p <> q -> stat (<[p := n]> m) q = stat m q.
Proof. destruct q; [reflexivity|]. intros H. now apply lookup_insert_ne. Qed.

Lemma ancestors_shorter (p a : path) :
  a ∈ ancestors p -> (length a < length p)%nat.
Proof.
  induction p as [|x up IH]; cbn [ancestors length]; intros H.
  - now apply elem_of_nil in H.
  - apply elem_of_cons in H as [-> | H]; [lia|]. specialize (IH H). lia.
Qed.

Lemma not_own_ancestor (p : path) : p ∉ ancestors p.
Proof. intros H. apply ancestors_shorter in H. lia. Qed.

Lemma not_own_parent (p : path) : p <> [] -> parent p <> p.
Proof.
  destruct p as [|x up]; [congruence|]. intros _ H.
  apply (f_equal length) in H. cbn in H. lia.
Qed.

Lemma ancestors_parent (p : path) :
  p <> [] -> parent p :: ancestors (parent p) = ancestors p.
Proof. destruct p; [congruence | reflexivity]. Qed.

(** In a well-formed file system every ancestor of an entry is a directory. *)
Lemma fs_wf_ancestors (m : fs) (p : path) (n : node) :
  fs_wf m -> stat m p = Some n -> forall a, a ∈ ancestors p -> stat m a = Some Dir.
Proof.
  intros Hwf. revert n. induction p as [|x up IH]; intros n Hp a Ha.
  - now apply elem_of_nil in Ha.
  - cbn [ancestors] in Ha. assert (Hup : stat m up = Some Dir) by exact (Hwf _ _ Hp).
    apply elem_of_cons in Ha as [-> | Ha]; [assumption | eauto].
Qed.

Lemma extends_refl (d : path) (m : fs) : extends d m m.
Proof. intros p. now left. Qed.

Lemma extends_insert (d : path) (m : fs) :
  stat m d = None -> extends d m (<[d := Dir]> m).
Proof.
  intros Hd p. destruct (decide (d = p)) as [<- | Hne].
  - right. split; [assumption|]. split; [|left].
    apply stat_insert_eq. intros ->. discriminate.
  - left. now apply stat_insert_ne.
Qed.

Lemma extends_step (x : string) (up : path) (m m1 m2 : fs) :
  extends up m m1 -> extends (x :: up) m1 m2 -> extends (x :: up) m m2.
Proof.
  intros H1 H2 p. cbn [ancestors] in *.
  destruct (H2 p) as [E2 | (N2 & D2 & I2)], (H1 p) as [E1 | (N1 & D1 & I1)].
  - left. congruence.
  - right. repeat split; [assumption | congruence | now right].
  - right. repeat split; [congruence | assumption | assumption].
  - congruence.
Qed.

Lemma os_mkdir_inv (d : path) (m : fs) (r : outcome unit) (m' : fs) :
  os_mkdir d m = (r, m') ->
  (r = Return tt /\ m' = <[d := Dir]> m /\ stat m d = None
   /\ stat m (parent d) = Some Dir)
  \/ (exists e, r = Raise (OSError e) /\ m' = m
                /\ (e = FileNotFoundError -> stat m d = None)).
Proof.
  unfold os_mkdir. destruct (stat m d) eqn:Hd.
  - intros [= <- <-]. right. eexists. repeat split; discriminate.
  - destruct (stat m (parent d)) as [[|c]|] eqn:Hp; intros [= <- <-].
    + left. auto.
    + right. eexists. repeat split; try discriminate.
    + right. eexists. repeat split; try discriminate.
Qed.

Lemma mkdir_exist_ok_inv (d : path) (m : fs) (r : outcome unit) (m' : fs) :
  mkdir_exist_ok d m = (r, m') ->
  extends d m m' /\ (r = Return tt -> is_dir m' d = true).
Proof.
  unfold mkdir_exist_ok. destruct (os_mkdir d m) as [r0 m0] eqn:E.
  apply os_mkdir_inv in E as [(-> & -> & Hd & Hp) | (e & -> & -> & _)].
  - intros [= <- <-]. split; [now apply extends_insert|]. intros _.
    unfold is_dir. rewrite stat_insert_eq; [reflexivity|].
    intros ->. discriminate.
  - destruct e; try (destruct (is_dir m d) eqn:Hdir);
      intros [= <- <-]; (split; [apply extends_refl | congruence]).
Qed.

Lemma mkdir_parents_inv (d : path) : forall (m : fs) (r : outcome unit) (m' : fs),
  mkdir_parents d m = (r, m') ->
  extends d m m' /\ (r = Return tt -> is_dir m' d = true).
Proof.
  induction d as [|x up IH]; intros m r m'; cbn [mkdir_parents];
    destruct (os_mkdir _ m) as [r0 m0] eqn:E;
    apply os_mkdir_inv in E as [(-> & -> & Hd & Hp) | (e & -> & -> & He)].
  - discriminate.
  - destruct e; try (destruct (is_dir m []) eqn:Hdir);
      intros [= <- <-]; (split; [apply extends_refl | congruence]).
  - intros [= <- <-]. split; [now apply extends_insert|]. intros _.
    unfold is_dir. now rewrite stat_insert_eq.
  - destruct e;
      [ destruct (is_dir m (x :: up)) eqn:Hdir; intros [= <- <-];
        (split; [apply extends_refl | congruence])
      | | destruct (is_dir m (x :: up)) eqn:Hdir; intros [= <- <-];
          (split; [apply extends_refl | congruence]) .. ].
    destruct (mkdir_parents up m) as [[[]|e1] m1] eqn:E1.
    + intros E2. apply IH in E1 as [X1 _].
      apply mkdir_exist_ok_inv in E2 as [X2 D2].
      split; [eapply extends_step; eassumption | assumption].
    + intros [= <- <-]. apply IH in E1 as [X1 _]. split; [|discriminate].
      intros p. destruct (X1 p) as [? | (? & ? & ?)]; [now left|].
      right. repeat split; try assumption. cbn [ancestors]. now right.
Qed.

Lemma mkdir_parents_noop (d : path) (m : fs) :
  is_dir m d = true -> mkdir_parents d m = (Return tt, m).
Proof.
  unfold is_dir. destruct (stat m d) as [[|c]|] eqn:Hd; try discriminate.
  intros _.
  destruct d; cbn [mkdir_parents]; unfold os_mkdir, is_dir;
    rewrite Hd; cbn beta iota; now rewrite Hd.
Qed.

(** Creating the parents of a path in a well-formed file system succeeds
    unless a file is in the way, and leaves every one of them a
    directory. *)
Lemma mkdir_parents_creates (d : path) : forall m : fs,
  fs_wf m ->
  (forall a c, a ∈ d :: ancestors d -> stat m a <> Some (File c)) ->
  exists m', mkdir_parents d m = (Return tt, m')
             /\ forall a, a ∈ d :: ancestors d -> stat m' a = Some Dir.
Proof.
  induction d as [|x up IH]; intros m Hwf Hfree.
  - exists m. split; [now apply mkdir_parents_noop|].
    intros a Ha. cbn [ancestors] in Ha.
    apply elem_of_cons in Ha as [-> | Ha]; [reflexivity | now apply elem_of_nil in Ha].
  - destruct (stat m (x :: up)) as [[|c]|] eqn:Hd.
    + exists m. split; [apply mkdir_parents_noop; unfold is_dir; now rewrite Hd|].
      intros a Ha. apply elem_of_cons in Ha as [-> | Ha]; [assumption|].
      eapply fs_wf_ancestors; eassumption.
    + exfalso. eapply Hfree; [left | eassumption].
    + assert (Hne : forall a, a ∈ up :: ancestors up -> x :: up <> a).
      { intros a Ha <-. apply (not_own_ancestor (x :: up)). exact Ha. }
      destruct (IH m Hwf) as (m1 & E1 & D1).
      { intros a c Ha. apply Hfree. cbn [ancestors]. now right. }
      assert (Hup : stat m1 up = Some Dir) by (apply D1; left).
      assert (Hd1 : stat m1 (x :: up) = None).
      { apply mkdir_parents_inv in E1 as [X1 _].
        destruct (X1 (x :: up)) as [-> | (_ & _ & Hin)]; [assumption|].
        exfalso. eapply Hne; [exact Hin | reflexivity]. }
      exists (<[x :: up := Dir]> m1). split.
      * cbn [mkdir_parents]. unfold os_mkdir. rewrite Hd. cbn [parent tail].
        destruct (stat m up) as [[|c]|] eqn:Hup0.
        -- rewrite mkdir_parents_noop in E1 by (unfold is_dir; now rewrite Hup0).
           now injection E1 as <-.
        -- exfalso. eapply Hfree; [right; left | eassumption].
        -- rewrite E1. unfold mkdir_exist_ok, os_mkdir.
           rewrite Hd1. cbn [parent tail]. now rewrite Hup.
      * intros a Ha. apply elem_of_cons in Ha as [-> | Ha].
        -- now apply stat_insert_eq.
        -- rewrite stat_insert_ne by now apply Hne. now apply D1.
Qed.

(* ===================================================================== *)
(** * What one call of [update_env_port] does *)
(* ===================================================================== *)

Lemma path_exists_stat (p : path) (m : fs) :
  path_exists p m =
    (Return (match stat m p with Some _ => true | None => false end), m).
Proof.
  unfold path_exists. destruct (stat m p) as [n|].
  - rewrite bool_decide_eq_true_2; eauto.
  - rewrite bool_decide_eq_false_2; [reflexivity|]. now intros [n Hn].
Qed.

Section UpdateRun.

Variable env : environment.
Variable port : Z.
Variable env_path : option path.

#[local] Abbreviation target := (_resolve_env_path env env_path).

Lemma update_env_port_mkdir_fails (w : world) (e : exn) (m1 : fs) :
  mkdir_parents (parent target) (w_fs w) = (Raise e, m1) ->
  update_env_port env port env_path w = (Raise e, set_fs m1 w).
Proof.
  intros H. unfold update_env_port, bind, on_fs. now rewrite H.
Qed.

Lemma update_env_port_run (w : world) (m1 : fs) :
  mkdir_parents (parent target) (w_fs w) = (Return tt, m1) ->
  update_env_port env port env_path w =
    match stat m1 target with
    | Some Dir => (Raise (OSError IsADirectoryError), set_fs m1 w)
    | _ =>
        match scan_lines (lit "PORT") (assignment port) 0 (env_lines m1 target) with
        | ReturnFalse => (Return false, set_fs m1 w)
        | _ => (Return true,
                written port target (updated_lines port (env_lines m1 target)) m1 w)
        end
    end.
Proof.
  intros H. pose proof (mkdir_parents_inv _ _ _ _ H) as [_ Hdir].
  specialize (Hdir eq_refl). unfold is_dir in Hdir.
  destruct (stat m1 (parent target)) as [[|c0]|] eqn:Hparent; try discriminate.
  unfold update_env_port, bind, on_fs. rewrite H. cbn [w_fs set_fs].
  rewrite path_exists_stat.
  unfold read_text, env_lines, updated_lines, written, update_log,
    assignment, file_text.
  destruct (stat m1 target) as [[|c]|] eqn:Hstat; cbn [w_fs set_fs];
    rewrite ?Hstat; try reflexivity.
  - unfold ret. cbn [w_fs set_fs].
    destruct (scan_lines _ _ 0 (splitlines (universal_newlines c))) eqn:Hscan;
      try reflexivity;
      unfold write_text, log; cbn [w_fs set_fs]; rewrite Hstat, Hparent; reflexivity.
  - unfold ret. cbn [w_fs set_fs scan_lines].
    unfold write_text, log; cbn [w_fs set_fs]; rewrite Hstat, Hparent; reflexivity.
Qed.

(** Creating the parent directories does not touch the target itself. *)
Lemma mkdir_keeps_target (m m1 : fs) (r : outcome unit) :
  mkdir_parents (parent target) m = (r, m1) ->
  target <> [] -> stat m1 target = stat m target.
Proof.
  intros H Hne. apply mkdir_parents_inv in H as [X _].
  destruct (X target) as [E | (_ & _ & Hin)]; [assumption|].
  rewrite ancestors_parent in Hin by assumption.
  now apply not_own_ancestor in Hin.
Qed.

End UpdateRun.

(** ** The three ways the scan can go *)

Section ScanCases.

Variable port : Z.

#[local] Abbreviation scan0 := (scan_lines (lit "PORT") (assignment port) 0).
#[local] Abbreviation no_port := (Forall (fun l => is_port_entry l = false)).

Lemma updated_lines_append (lines : list str) :
  no_port lines ->
  scan0 lines = Exhausted /\ updated_lines port lines = lines ++ [assignment port].
Proof.
  intros H. unfold updated_lines. now rewrite (scan_none _ _ _ H).
Qed.

Lemma scan_already_set (pre : list str) (line : str) (post : list str) :
  no_port pre -> strip line = assignment port ->
  scan0 (pre ++ line :: post) = ReturnFalse.
Proof.
  intros Hpre Hline.
  assert (Hport : is_port_entry line = true).
  { pose proof (assignment_is_port_entry port) as H.
    unfold is_port_entry in *. rewrite strip_assignment in H. now rewrite Hline. }
  rewrite scan_first by assumption.
  now rewrite (proj2 (str_eqb_eq _ _) Hline).
Qed.

Lemma updated_lines_replace (pre : list str) (line : str) (post : list str) :
  no_port pre -> is_port_entry line = true -> strip line <> assignment port ->
  scan0 (pre ++ line :: post) = Break (length pre)
  /\ updated_lines port (pre ++ line :: post) = pre ++ assignment port :: post.
Proof.
  intros Hpre Hline Hne. unfold updated_lines.
  rewrite scan_first by assumption.
  rewrite (proj2 (str_eqb_neq _ _) Hne). cbn [Nat.add]. split; [reflexivity|].
  rewrite <- (Nat.add_0_r (length pre)) at 1. now rewrite insert_app_r.
Qed.

Lemma scan_cases (lines : list str) : scan_case port lines.
Proof.
  destruct (first_port_entry lines) as [H | (pre & line & post & E & Hpre & Hline)].
  - now apply case_absent.
  - destruct (decide (strip line = assignment port)).
    + eapply case_already; eassumption.
    + eapply case_differs; eassumption.
Qed.

Lemma scan_ReturnFalse_iff (lines : list str) :
  scan0 lines = ReturnFalse <->
  exists pre line post,
    lines = pre ++ line :: post /\ no_port pre /\ strip line = assignment port.
Proof.
  split.
  - intros H. destruct (scan_cases lines) as [Hn | pre line post E Hpre Hl Hs
                                              | pre line post E Hpre Hl Hs].
    + apply updated_lines_append in Hn as [Hn _]. congruence.
    + eauto 6.
    + subst lines. destruct (updated_lines_replace pre line post Hpre Hl Hs) as [Hb _].
      congruence.
  - intros (pre & line & post & -> & Hpre & Hs). now apply scan_already_set.
Qed.

(** After an update the first [PORT] line is the assignment. *)
Lemma scan_updated_lines (lines : list str) :
  scan0 lines <> ReturnFalse -> scan0 (updated_lines port lines) = ReturnFalse.
Proof.
  intros H. destruct (scan_cases lines) as [Hn | pre line post E Hpre Hl Hs
                                            | pre line post E Hpre Hl Hs].
  - apply updated_lines_append in Hn as Hu. destruct Hu as [_ ->].
    apply scan_already_set; [assumption | apply strip_assignment].
  - subst lines. now rewrite scan_already_set in H.
  - subst lines. destruct (updated_lines_replace pre line post Hpre Hl Hs) as [_ ->].
    apply scan_already_set; [assumption | apply strip_assignment].
Qed.

Lemma updated_lines_nonempty (lines : list str) : updated_lines port lines <> [].
Proof.
  unfold updated_lines. destruct (scan0 lines) eqn:E.
  - now destruct lines.
  - destruct (scan_cases lines) as [Hn | pre line post -> Hpre Hl Hs
                                    | pre line post -> Hpre Hl Hs].
    + apply updated_lines_append in Hn as [Hn _]. congruence.
    + rewrite scan_already_set in E by assumption. discriminate.
    + intros Hnil. apply (f_equal length) in Hnil.
      rewrite length_insert, length_app in Hnil. cbn in Hnil. lia.
  - now destruct lines.
Qed.

Lemma updated_lines_are_lines (lines : list str) :
  Forall is_line lines -> Forall is_line (updated_lines port lines).
Proof.
  intros H. unfold updated_lines. destruct (scan0 lines).
  - apply Forall_app. split; [assumption|]. constructor; [apply assignment_is_line | constructor].
  - apply Forall_insert; [assumption | apply assignment_is_line].
  - apply Forall_app. split; [assumption|]. constructor; [apply assignment_is_line | constructor].
Qed.

Lemma other_lines_skip (l : str) (ls : list str) :
  is_port_entry l = true -> other_lines (l :: ls) = other_lines ls.
Proof. intros H. unfold other_lines. cbn [List.filter]. now rewrite H. Qed.

Lemma port_entries_keep (l : str) (ls : list str) :
  is_port_entry l = true -> port_entries (l :: ls) = l :: port_entries ls.
Proof. intros H. unfold port_entries. cbn [List.filter]. now rewrite H. Qed.

Lemma other_lines_snoc (ls : list str) (a : str) :
  is_port_entry a = true -> other_lines (ls ++ [a]) = other_lines ls.
Proof.
  intros H. rewrite other_lines_app, other_lines_skip by assumption.
  apply app_nil_r.
Qed.

(** An update keeps every other line, in order. *)
Lemma other_lines_updated (lines : list str) :
  other_lines (updated_lines port lines) = other_lines lines.
Proof.
  pose proof (assignment_is_port_entry port) as Ha.
  destruct (scan_cases lines) as [Hn | pre line post E Hpre Hl Hs
                                  | pre line post E Hpre Hl Hs].
  - apply updated_lines_append in Hn as [_ ->]. now apply other_lines_snoc.
  - subst lines. unfold updated_lines. rewrite scan_already_set by assumption.
    now apply other_lines_snoc.
  - subst lines. destruct (updated_lines_replace pre line post Hpre Hl Hs) as [_ ->].
    now rewrite !other_lines_app, !other_lines_skip.
Qed.

(** An update leaves as many [PORT] lines as there were, and one when
    there was none. *)
Lemma port_entries_updated (lines : list str) :
  scan0 lines <> ReturnFalse ->
  length (port_entries (updated_lines port lines))
  = Nat.max 1 (length (port_entries lines)).
Proof.
  intros H. pose proof (assignment_is_port_entry port) as Ha.
  destruct (scan_cases lines) as [Hn | pre line post E Hpre Hl Hs
                                  | pre line post E Hpre Hl Hs].
  - apply updated_lines_append in Hn as Hu. destruct Hu as [_ ->].
    rewrite port_entries_app, (port_entries_none _ Hn).
    now rewrite port_entries_keep.
  - subst lines. now rewrite scan_already_set in H.
  - subst lines. destruct (updated_lines_replace pre line post Hpre Hl Hs) as [_ ->].
    rewrite !port_entries_app, !port_entries_keep by assumption.
    rewrite !length_app. cbn [length]. lia.
Qed.

End ScanCases.

Lemma env_lines_are_lines (m : fs) (p : path) : Forall is_line (env_lines m p).
Proof.
  unfold env_lines. destruct (stat m p) as [[|c]|]; try constructor.
  apply splitlines_lines.
Qed.

(* ===================================================================== *)
(** * Properties of [update_env_port] *)
(* ===================================================================== *)

Section UpdateProperties.

Variable env : environment.

(** Every returning call went through the same steps: the parent
    directory was created or found, the target is not a directory, and
    the scan of its lines decided between leaving the file alone and
    writing the updated lines. *)
Lemma update_env_port_return (port : Z) (env_path : option path)
    (w : world) (b : bool) (w' : world) :
  update_env_port env port env_path w = (Return b, w') ->
  let target := _resolve_env_path env env_path in
  let lines := env_lines (w_fs w) target in
  exists m1 : fs,
    mkdir_parents (parent target) (w_fs w) = (Return tt, m1)
    /\ target <> []
    /\ stat m1 target = stat (w_fs w) target
    /\ stat m1 target <> Some Dir
    /\ is_dir m1 (parent target) = true
    /\ ((b = false /\ w' = set_fs m1 w
         /\ scan_lines (lit "PORT") (assignment port) 0 lines = ReturnFalse)
        \/ (b = true /\ w' = written port target (updated_lines port lines) m1 w
            /\ scan_lines (lit "PORT") (assignment port) 0 lines <> ReturnFalse)).
Proof.
  intros H target lines.
  destruct (mkdir_parents (parent target) (w_fs w)) as [[[]|e] m1] eqn:Hmk.
  2: { rewrite (update_env_port_mkdir_fails _ _ _ _ _ _ Hmk) in H. discriminate. }
  rewrite (update_env_port_run _ _ _ _ _ Hmk) in H. fold target in H.
  assert (Hne : target <> []).
  { intros E. rewrite E in H. cbn in H. discriminate. }
  pose proof (mkdir_keeps_target _ _ _ _ _ Hmk Hne) as Hkeep. fold target in Hkeep.
  assert (Hlines : env_lines m1 target = lines).
  { unfold lines, env_lines. now rewrite Hkeep. }
  rewrite Hlines in H.
  exists m1. split; [reflexivity|]. split; [assumption|]. split; [assumption|].
  split; [intros E; rewrite E in H; discriminate|].
  split; [exact (proj2 (mkdir_parents_inv _ _ _ _ Hmk) eq_refl)|].
  destruct (stat m1 target) as [[|c]|];
    try discriminate;
    destruct (scan_lines _ _ 0 lines); injection H as <- <-;
    solve [ left; auto | right; repeat split; discriminate ].
Qed.

(** A file that exists in a well-formed file system: the directory is
    there already, so the call only reads and possibly rewrites it. *)
Lemma update_env_port_existing (port : Z) (env_path : option path)
    (w : world) (content : str) :
  let target := _resolve_env_path env env_path in
  let lines := splitlines (universal_newlines content) in
  fs_wf (w_fs w) ->
  stat (w_fs w) target = Some (File content) ->
  update_env_port env port env_path w =
    match scan_lines (lit "PORT") (assignment port) 0 lines with
    | ReturnFalse => (Return false, w)
    | _ => (Return true,
            written port target (updated_lines port lines) (w_fs w) w)
    end.
Proof.
  intros target lines Hwf Hstat.
  assert (Hparent : is_dir (w_fs w) (parent target) = true).
  { unfold is_dir. destruct target as [|x up] eqn:E; [discriminate|].
    now rewrite (Hwf _ _ Hstat). }
  rewrite (update_env_port_run _ _ _ _ _ (mkdir_parents_noop _ _ Hparent)).
  fold target. unfold env_lines. rewrite Hstat. fold lines.
  now destruct w.
Qed.

End UpdateProperties.

(* ===================================================================== *)
(** * The concrete file systems are well formed *)
(* ===================================================================== *)

Lemma fs_wf_empty : fs_wf ∅.
Proof. intros p n H. rewrite lookup_empty in H. discriminate. Qed.

Lemma fs_wf_dotenv (content : str) : fs_wf (dotenv content).
Proof.
  intros p n H. unfold dotenv in H.
  apply lookup_singleton_Some in H as [<- _]. reflexivity.
Qed.

(* ===================================================================== *)
(** * Specified behaviour of [update_env_port] *)
(* ===================================================================== *)

(** C7.  Called with port 2000 on a file whose text is
    [FOO=bar\nPORT=1000\n], [update_env_port] rewrites the file to exactly
    [FOO=bar\nPORT=2000\n] (the [FOO] line unchanged and in place) and
    returns [True]. *)
Theorem update_env_port_replaces_port_1000 (env : environment)
    (env_path : option path) (w : world) :
  let target := _resolve_env_path env env_path in
  fs_wf (w_fs w) ->
  stat (w_fs w) target
    = Some (File (lit "FOO=bar" ++ LF :: lit "PORT=1000" ++ [LF])) ->
  update_env_port env 2000 env_path w =
    (Return true,
     emit (update_log 2000)
       (set_fs (<[target := File (lit "FOO=bar" ++ LF :: lit "PORT=2000" ++ [LF])]>
                  (w_fs w)) w)).
Proof.
  intros target Hwf Hstat.
  rewrite (update_env_port_existing env 2000 env_path w _ Hwf Hstat).
  reflexivity.
Qed.

Lemma update_env_port_replaces_port_1000_witness :
  update_env_port (host_with []) 2000 None
    (console (dotenv (lit "FOO=bar" ++ LF :: lit "PORT=1000" ++ [LF])) []) =
    (Return true,
     emit (update_log 2000)
       (set_fs (<[ [".env"%string] :=
                     File (lit "FOO=bar" ++ LF :: lit "PORT=2000" ++ [LF]) ]>
                  (dotenv (lit "FOO=bar" ++ LF :: lit "PORT=1000" ++ [LF])))
          (console (dotenv (lit "FOO=bar" ++ LF :: lit "PORT=1000" ++ [LF])) []))).
Proof.
  apply (update_env_port_replaces_port_1000 (host_with []) None).
  - apply fs_wf_dotenv.
  - reflexivity.
Defined.

(** C8.  Called with port 3000 on a path at which nothing exists,
    [update_env_port] creates the missing parent directories, creates the
    file with text exactly [PORT=3000\n], and returns [True].  The file
    system is well formed and no regular file stands where a parent
    directory is needed (in which case [mkdir] raises). *)
Theorem update_env_port_creates_file (env : environment)
    (env_path : option path) (w : world) :
  let target := _resolve_env_path env env_path in
  fs_wf (w_fs w) ->
  stat (w_fs w) target = None ->
  (forall a c, a ∈ ancestors target -> stat (w_fs w) a <> Some (File c)) ->
  exists w',
    update_env_port env 3000 env_path w = (Return true, w')
    /\ stat (w_fs w') target = Some (File (lit "PORT=3000" ++ [LF]))
    /\ (forall a, a ∈ ancestors target -> stat (w_fs w') a = Some Dir)
    /\ (forall p, p <> target -> p ∉ ancestors target ->
                  stat (w_fs w') p = stat (w_fs w) p).
Proof.
  intros target Hwf Habsent Hfree.
  assert (Hne : target <> []) by (intros E; rewrite E in Habsent; discriminate).
  destruct (mkdir_parents_creates (parent target) (w_fs w) Hwf) as (m1 & Hmk & Hdirs).
  { intros a c Ha. apply Hfree. now rewrite <- ancestors_parent. }
  rewrite ancestors_parent in Hdirs by assumption.
  pose proof (mkdir_keeps_target env env_path _ _ _ Hmk Hne) as Hkeep.
  fold target in Hkeep. rewrite Habsent in Hkeep.
  exists (written 3000 target [assignment 3000] m1 w).
  split; [|split; [|split]].
  - rewrite (update_env_port_run env 3000 env_path w m1 Hmk). fold target.
    unfold env_lines. now rewrite Hkeep.
  - cbn [written emit set_fs w_fs]. now rewrite stat_insert_eq.
  - intros a Ha. cbn [written emit set_fs w_fs].
    rewrite stat_insert_ne; [now apply Hdirs|].
    intros <-. now apply not_own_ancestor in Ha.
  - intros p Hp Hanc. cbn [written emit set_fs w_fs].
    rewrite stat_insert_ne by congruence.
    apply mkdir_parents_inv in Hmk as [X _].
    destruct (X p) as [E | (_ & _ & Hin)]; [assumption|].
    rewrite ancestors_parent in Hin by assumption. contradiction.
Qed.

Lemma update_env_port_creates_file_witness :
  exists w',
    update_env_port (host_with []) 3000
      (Some ["port.env"; "conf"; "srv"]%string) (console ∅ [])
    = (Return true, w')
    /\ stat (w_fs w') ["port.env"; "conf"; "srv"]%string
       = Some (File (lit "PORT=3000" ++ [LF]))
    /\ (forall a, a ∈ ancestors ["port.env"; "conf"; "srv"]%string ->
                  stat (w_fs w') a = Some Dir)
    /\ (forall p, p <> ["port.env"; "conf"; "srv"]%string ->
                  p ∉ ancestors ["port.env"; "conf"; "srv"]%string ->
                  stat (w_fs w') p = stat (∅ : fs) p).
Proof.
  apply (update_env_port_creates_file (host_with [])
           (Some ["port.env"; "conf"; "srv"]%string) (console ∅ [])).
  - apply fs_wf_empty.
  - reflexivity.
  - intros a c _. destruct a; cbn; [discriminate|]. now rewrite lookup_empty.
Defined.

(** C10.  Change detection compares text, not values.  For the first
    [PORT] line of the file: when its stripped text is exactly
    [PORT=<port>] (white space around the line is tolerated) the call
    returns [False] and writes nothing; when it spells the same number
    differently, as [PORT = 2000] does for port 2000, the line is rewritten
    to the canonical [PORT=2000] and the call returns [True]. *)
Theorem update_env_port_compares_text (env : environment)
    (env_path : option path) (w : world) (content : str)
    (pre : list str) (line : str) (post : list str) :
  let target := _resolve_env_path env env_path in
  fs_wf (w_fs w) ->
  stat (w_fs w) target = Some (File content) ->
  splitlines (universal_newlines content) = pre ++ line :: post ->
  Forall (fun l => is_port_entry l = false) pre ->
  (forall port, strip line = assignment port ->
     update_env_port env port env_path w = (Return false, w))
  /\ (forall port, is_port_entry line = true -> strip line <> assignment port ->
        update_env_port env port env_path w =
          (Return true,
           written port target (pre ++ assignment port :: post) (w_fs w) w))
  /\ (line = lit "PORT = 2000" ->
        update_env_port env 2000 env_path w =
          (Return true,
           written 2000 target (pre ++ lit "PORT=2000" :: post) (w_fs w) w)).
Proof.
  intros target Hwf Hstat Hlines Hpre.
  assert (Hdiff : forall port, is_port_entry line = true ->
            strip line <> assignment port ->
            update_env_port env port env_path w =
              (Return true,
               written port target (pre ++ assignment port :: post) (w_fs w) w)).
  { intros port Hline Hne.
    rewrite (update_env_port_existing env port env_path w _ Hwf Hstat), Hlines.
    destruct (updated_lines_replace port pre line post Hpre Hline Hne) as [-> ->].
    reflexivity. }
  split; [|split].
  - intros port Hline.
    rewrite (update_env_port_existing env port env_path w _ Hwf Hstat), Hlines.
    now rewrite scan_already_set.
  - exact Hdiff.
  - intros ->. apply (Hdiff 2000); [reflexivity|]. vm_compute. discriminate.
Qed.

Lemma update_env_port_compares_text_witness :
  let content := lit "A=1" ++ LF :: lit "PORT = 2000" ++ [LF] in
  let w := console (dotenv content) [] in
  let line := lit "PORT = 2000" in
  (forall port, strip line = assignment port ->
     update_env_port (host_with []) port None w = (Return false, w))
  /\ (forall port, is_port_entry line = true -> strip line <> assignment port ->
        update_env_port (host_with []) port None w =
          (Return true,
           written port [".env"%string] ([lit "A=1"] ++ assignment port :: [])
             (w_fs w) w))
  /\ (line = lit "PORT = 2000" ->
        update_env_port (host_with []) 2000 None w =
          (Return true,
           written 2000 [".env"%string] ([lit "A=1"] ++ lit "PORT=2000" :: [])
             (w_fs w) w)).
Proof.
  intros content w line.
  apply (update_env_port_compares_text (host_with []) None w content
           [lit "A=1"] line []).
  - apply fs_wf_dotenv.
  - reflexivity.
  - reflexivity.
  - constructor; [reflexivity | constructor].
Defined.

(** C5 (as amended).  Whenever a call of [update_env_port] returns, a
    second call with the same port returns [False] and changes nothing:
    the first [PORT] line now equals the target assignment verbatim.  The
    first call itself returns [False] exactly when the file's first
    [PORT] line already had that text, and [True] otherwise. *)
Theorem update_env_port_second_call (env : environment) (port : Z)
    (env_path : option path) (w : world) (b : bool) (w1 : world) :
  update_env_port env port env_path w = (Return b, w1) ->
  let target := _resolve_env_path env env_path in
  let lines := env_lines (w_fs w) target in
  update_env_port env port env_path w1 = (Return false, w1)
  /\ (b = false <->
      exists pre line post,
        lines = pre ++ line :: post
        /\ Forall (fun l => is_port_entry l = false) pre
        /\ strip line = assignment port).
Proof.
  intros H target lines.
  destruct (update_env_port_return env port env_path w b w1 H)
    as (m1 & Hmk & Hne & Hkeep & Hnodir & Hparent & Hcase).
  fold target in Hmk, Hne, Hkeep, Hnodir, Hparent, Hcase. fold lines in Hcase.
  destruct Hcase as [(-> & -> & Hscan) | (-> & -> & Hscan)].
  - split; [|split; [intros _; now apply scan_ReturnFalse_iff | reflexivity]].
    rewrite (update_env_port_run env port env_path (set_fs m1 w) m1)
      by (now apply mkdir_parents_noop).
    fold target. unfold env_lines. rewrite Hkeep. fold (env_lines (w_fs w) target).
    fold lines. rewrite Hscan.
    destruct (stat (w_fs w) target) as [[|c]|] eqn:E; congruence || reflexivity.
  - split; [|split; [discriminate | intros E; apply scan_ReturnFalse_iff in E;
                                    contradiction]].
    set (new := updated_lines port lines).
    set (m2 := <[target := File (file_text new)]> m1).
    assert (Hparent2 : is_dir m2 (parent target) = true).
    { unfold is_dir, m2. rewrite stat_insert_ne; [exact Hparent|].
      intros E. now apply (not_own_parent target). }
    assert (Hstat2 : stat m2 target = Some (File (file_text new))).
    { unfold m2. now apply stat_insert_eq. }
    rewrite (update_env_port_run env port env_path (written port target new m1 w) m2)
      by (now apply mkdir_parents_noop).
    fold target. unfold env_lines. rewrite Hstat2.
    rewrite read_back;
      [ | apply updated_lines_nonempty
        | apply updated_lines_are_lines, env_lines_are_lines ].
    unfold new. now rewrite scan_updated_lines.
Qed.

Lemma update_env_port_second_call_witness :
  let w := console (dotenv (lit "FOO=bar" ++ LF :: lit "PORT=1000" ++ [LF])) [] in
  let w1 := snd (update_env_port (host_with []) 2000 None w) in
  let lines := env_lines (w_fs w) [".env"%string] in
  update_env_port (host_with []) 2000 None w1 = (Return false, w1)
  /\ (true = false <->
      exists pre line post,
        lines = pre ++ line :: post
        /\ Forall (fun l => is_port_entry l = false) pre
        /\ strip line = assignment 2000).
Proof.
  intros w w1 lines.
  apply (update_env_port_second_call (host_with []) 2000 None w true w1).
  reflexivity.
Defined.

(** C5 as stated fails: on a file that already holds [PORT=3000] the first
    of two calls with port 3000 returns [False], not [True]. *)
Lemma update_env_port_first_call_may_return_false :
  update_env_port (host_with []) 3000 None
    (console (dotenv (lit "PORT=3000" ++ [LF])) [])
  = (Return false, console (dotenv (lit "PORT=3000" ++ [LF])) []).
Proof. reflexivity. Qed.

(** C1 (as amended).  After a call of [update_env_port] that returns:
    only the first [PORT] entry is replaced, in place, and every other
    line, further [PORT] entries included, stays where it was (with no
    [PORT] entry the assignment is appended after the last line); so the
    other lines of the file are the same and in the same order, and the
    file has at most one [PORT] entry if it had at most one before; when
    the call returned [True] the file's text is its lines joined by
    newlines and closed by one newline, with as many [PORT] entries as
    before (one if there was none); when it returned [False] the file is
    untouched. *)
Theorem update_env_port_envfile (env : environment) (port : Z)
    (env_path : option path) (w : world) (b : bool) (w' : world) :
  update_env_port env port env_path w = (Return b, w') ->
  let target := _resolve_env_path env env_path in
  let before := env_lines (w_fs w) target in
  let after := env_lines (w_fs w') target in
  other_lines after = other_lines before
  /\ ((length (port_entries before) <= 1)%nat ->
      (length (port_entries after) <= 1)%nat)
  /\ (b = true ->
      stat (w_fs w') target = Some (File (join [LF] after ++ [LF]))
      /\ length (port_entries after) = Nat.max 1 (length (port_entries before)))
  /\ (b = false -> stat (w_fs w') target = stat (w_fs w) target)
  /\ (forall pre line post,
        before = pre ++ line :: post ->
        Forall (fun l => is_port_entry l = false) pre ->
        is_port_entry line = true ->
        (strip line = assignment port -> b = false /\ after = before)
        /\ (strip line <> assignment port ->
            b = true /\ after = pre ++ assignment port :: post))
  /\ (Forall (fun l => is_port_entry l = false) before ->
      b = true /\ after = before ++ [assignment port]).
Proof.
  intros H target before after.
  destruct (update_env_port_return env port env_path w b w' H)
    as (m1 & Hmk & Hne & Hkeep & Hnodir & Hparent & Hcase).
  fold target in Hmk, Hne, Hkeep, Hnodir, Hparent, Hcase. fold before in Hcase.
  destruct Hcase as [(-> & -> & Hscan) | (-> & -> & Hscan)].
  - assert (Hsame : after = before).
    { unfold after, before, env_lines. cbn [w_fs set_fs]. now rewrite Hkeep. }
    rewrite Hsame.
    split; [reflexivity|]. split; [auto|]. split; [discriminate|].
    split; [intros _; exact Hkeep|]. split.
    + intros pre line post Hbefore Hpre Hline. split; [now split|].
      intros Hdiff. exfalso.
      destruct (updated_lines_replace port pre line post Hpre Hline Hdiff)
        as [Hbreak _].
      rewrite <- Hbefore in Hbreak. congruence.
    + intros Hnone. exfalso.
      destruct (updated_lines_append port before Hnone) as [Hex _]. congruence.
  - assert (Hstat : stat (w_fs (written port target (updated_lines port before) m1 w))
                      target
                    = Some (File (file_text (updated_lines port before)))).
    { cbn [written emit set_fs w_fs]. now apply stat_insert_eq. }
    assert (Hafter : after = updated_lines port before).
    { unfold after, env_lines. rewrite Hstat. apply read_back;
        [apply updated_lines_nonempty
        | apply updated_lines_are_lines, env_lines_are_lines]. }
    rewrite Hafter.
    pose proof (port_entries_updated port before Hscan) as Hcount.
    split; [apply other_lines_updated|]. split; [lia|].
    split; [intros _; split; [exact Hstat | exact Hcount]|].
    split; [discriminate|]. split.
    + intros pre line post Hbefore Hpre Hline. split.
      * intros Hsame. exfalso. apply Hscan. rewrite Hbefore.
        now apply scan_already_set.
      * intros Hdiff.
        destruct (updated_lines_replace port pre line post Hpre Hline Hdiff)
          as [_ Hup].
        rewrite <- Hbefore in Hup. now split.
    + intros Hnone. destruct (updated_lines_append port before Hnone) as [_ Hup].
      now split.
Qed.

Lemma update_env_port_envfile_witness :
  let w := console (dotenv (lit "PORT=1" ++ LF :: lit "A=1" ++ LF
                              :: lit "PORT=2" ++ [LF])) [] in
  let w' := snd (update_env_port (host_with []) 3 None w) in
  let before := env_lines (w_fs w) [".env"%string] in
  let after := env_lines (w_fs w') [".env"%string] in
  other_lines after = other_lines before
  /\ ((length (port_entries before) <= 1)%nat ->
      (length (port_entries after) <= 1)%nat)
  /\ (true = true ->
      stat (w_fs w') [".env"%string] = Some (File (join [LF] after ++ [LF]))
      /\ length (port_entries after) = Nat.max 1 (length (port_entries before)))
  /\ (true = false ->
      stat (w_fs w') [".env"%string] = stat (w_fs w) [".env"%string])
  /\ (forall pre line post,
        before = pre ++ line :: post ->
        Forall (fun l => is_port_entry l = false) pre ->
        is_port_entry line = true ->
        (strip line = assignment 3 -> true = false /\ after = before)
        /\ (strip line <> assignment 3 ->
            true = true /\ after = pre ++ assignment 3 :: post))
  /\ (Forall (fun l => is_port_entry l = false) before ->
      true = true /\ after = before ++ [assignment 3]).
Proof.
  intros w w' before after.
  apply (update_env_port_envfile (host_with []) 3 None w true w').
  reflexivity.
Defined.

(** C1 as stated fails.  With two [PORT] lines in the file only the first
    is replaced, so two remain; on the no-write path a file without a
    final newline stays without one; and a blank last line leaves the
    written text ending in two newlines. *)
Lemma update_env_port_breaks_envfile_invariant :
  let two := console (dotenv (lit "PORT=1" ++ LF :: lit "PORT=2" ++ [LF])) [] in
  let bare := console (dotenv (lit "PORT=3")) [] in
  let blank := console (dotenv (lit "PORT=1" ++ [LF; LF])) [] in
  (update_env_port (host_with []) 3 None two
   = (Return true,
      written 3 [".env"%string] [lit "PORT=3"; lit "PORT=2"] (w_fs two) two)
   /\ ~ envfile_invariant
          (w_fs (snd (update_env_port (host_with []) 3 None two)))
          [".env"%string])
  /\ (update_env_port (host_with []) 3 None bare = (Return false, bare)
      /\ ~ envfile_invariant
             (w_fs (snd (update_env_port (host_with []) 3 None bare)))
             [".env"%string])
  /\ (update_env_port (host_with []) 3 None blank
      = (Return true, written 3 [".env"%string] [lit "PORT=3"; []] (w_fs blank) blank)
      /\ ~ envfile_invariant
             (w_fs (snd (update_env_port (host_with []) 3 None blank)))
             [".env"%string]).
Proof.
  intros two bare blank.
  repeat split; try reflexivity;
    intros (content & Hstat & Hcount & Hnl);
    vm_compute in Hstat; injection Hstat as <-;
    vm_compute in Hcount, Hnl; (lia || discriminate).
Qed.

(* ===================================================================== *)
(** * Facts about the probe and the negotiation *)
(* ===================================================================== *)

Lemma append_trace_nil (w : world) : append_trace [] w = w.
Proof. destruct w. unfold append_trace. cbn. now rewrite app_nil_r. Qed.

Lemma append_trace_app (a b : list event) (w : world) :
  append_trace b (append_trace a w) = append_trace (a ++ b) w.
Proof. unfold append_trace. cbn. now rewrite app_assoc. Qed.

Lemma emit_append (e : event) (w : world) : emit e w = append_trace [e] w.
Proof. reflexivity. Qed.

Lemma stdout_of_app (a b : list event) :
  stdout_of (a ++ b) = stdout_of a ++ stdout_of b.
Proof.
  induction a as [|[l s|s|s] a IH]; cbn [app stdout_of]; now rewrite ?IH.
Qed.

Section ProbeFacts.

Variable env : environment.

(** The probe is a value and a list of warnings: it neither reads the
    world nor changes anything but the trace. *)
Lemma probe_candidates_pure (candidates : list str) (port : Z) :
  exists (r : outcome bool) (logs : list event),
    (forall w, probe_candidates env candidates port w = (r, append_trace logs w))
    /\ Forall (fun e => exists c, e = unresolved_warning c) logs
    /\ (forall e, r = Raise e -> exists n, e = NetError n).
Proof.
  induction candidates as [|c rest (r & logs & Hrun & Hlogs & Hexn)];
    cbn [probe_candidates].
  - exists (Return false), []. repeat split; [|constructor|discriminate].
    intros w. now rewrite append_trace_nil.
  - destruct (getaddrinfo env c port) as [l | []].
    + destruct (connect_any env l); [|eauto 6].
      exists (Return true), []. repeat split; [|constructor|discriminate].
      intros w. now rewrite append_trace_nil.
    + exists r, (unresolved_warning c :: logs). repeat split.
      * intros w. unfold bind, log. rewrite Hrun.
        change (emit ?e w) with (append_trace [e] w).
        now rewrite append_trace_app.
      * constructor; eauto.
      * exact Hexn.
    + exists (Raise (NetError other_net_error)), []. repeat split.
      * intros w. now rewrite append_trace_nil.
      * constructor.
      * intros e [= <-]. eauto.
Qed.

Lemma is_port_in_use_pure (host : option str) (port : Z) :
  exists (r : outcome bool) (logs : list event),
    (forall w, is_port_in_use env host port w = (r, append_trace logs w))
    /\ Forall (fun e => exists c, e = unresolved_warning c) logs
    /\ (forall e, r = Raise e -> exists n, e = NetError n).
Proof. apply probe_candidates_pure. Qed.

(** What the probe reports does not depend on the world it runs in. *)
Lemma is_port_in_use_fst (host : option str) (port : Z) (w w0 : world) :
  fst (is_port_in_use env host port w) = fst (is_port_in_use env host port w0).
Proof.
  destruct (is_port_in_use_pure host port) as (r & logs & Hrun & _).
  now rewrite !Hrun.
Qed.

End ProbeFacts.

Section NegotiationFacts.

Variable env : environment.
Variable host : option str.
Variable initial_port : Z.

#[local] Abbreviation occupied port :=
  (forall w, fst (is_port_in_use env host port w) = Return true).
#[local] Abbreviation free port :=
  (forall w, fst (is_port_in_use env host port w) = Return false).
#[local] Abbreviation check := (check_port env host initial_port).
#[local] Abbreviation loop := (prompt_loop env host initial_port).

(** The head of the outer loop, by what the probe reports. *)
Lemma check_port_cases (ask : Z -> M Z) (port : Z) (w : world)
    (r : outcome bool) (logs : list event) :
  (forall w, is_port_in_use env host port w = (r, append_trace logs w)) ->
  check ask port w =
    match r with
    | Raise e => (Raise e, append_trace logs w)
    | Return false =>
        (Return port,
         append_trace
           (logs ++ if port =? initial_port then []
                    else [substitution_warning initial_port port]) w)
    | Return true =>
        if w_isatty w
        then ask port (append_trace (logs ++ [busy_warning port]) w)
        else (Raise (SystemExit 1),
              append_trace (logs ++ [busy_warning port; no_tty_error]) w)
    end.
Proof.
  intros Hrun. unfold check_port, bind. rewrite Hrun.
  destruct r as [[|]|e]; [| |reflexivity]; cbn [negb].
  - unfold log, isatty, raise.
    change (emit ?e ?x) with (append_trace [e] x). rewrite append_trace_app.
    cbn [w_isatty append_trace]. destruct (w_isatty w); cbn [negb]; [reflexivity|].
    change (emit ?e ?x) with (append_trace [e] x).
    now rewrite append_trace_app, <- app_assoc.
  - destruct (port =? initial_port); cbn [negb]; unfold ret, log.
    + now rewrite app_nil_r.
    + change (emit ?e ?x) with (append_trace [e] x). now rewrite append_trace_app.
Qed.

(** One round of the prompt loop, by the item read. *)
Lemma prompt_loop_eof (port : Z) (w : world) :
  loop [] port w
  = (Raise (SystemExit 1),
     append_trace [Stderr (prompt_text port); no_input_error] w).
Proof.
  cbn [prompt_loop]. unfold bind, print_stderr, log, raise.
  now rewrite !emit_append, append_trace_app.
Qed.

Lemma prompt_loop_interrupt (rest : list stdin_item) (port : Z) (w : world) :
  loop (Interrupt :: rest) port w
  = (Raise (SystemExit 1),
     append_trace [Stderr (prompt_text port); no_input_error] (set_stdin rest w)).
Proof.
  cbn [prompt_loop]. unfold bind, print_stderr, consume, log, raise.
  unfold emit, set_stdin, append_trace. cbn [w_fs w_stdin w_isatty w_trace].
  now rewrite <- app_assoc.
Qed.

Lemma prompt_loop_line (s : str) (rest : list stdin_item) (port : Z) (w : world) :
  let choice := lower (unicode_lower env) (strip s) in
  let w1 := append_trace [Stderr (prompt_text port)] (set_stdin rest w) in
  loop (Line s :: rest) port w =
    if str_eqb choice (lit "y") then check (loop rest) (port + 1) w1
    else if str_eqb choice (lit "n")
    then (Raise (SystemExit 1), append_trace [declined_error] w1)
    else loop rest port (append_trace [retry_hint] w1).
Proof.
  cbn [prompt_loop]. unfold bind, print_stderr, consume. cbv zeta.
  cbn [w_fs w_stdin w_isatty w_trace emit set_stdin].
  destruct (str_eqb _ (lit "y")); [reflexivity|].
  destruct (str_eqb _ (lit "n")); reflexivity.
Qed.

End NegotiationFacts.

Lemma quiet_refl (w : world) : quiet w w.
Proof. now repeat split. Qed.

Lemma quiet_trans (a b c : world) : quiet a b -> quiet b c -> quiet a c.
Proof. unfold quiet. intros (? & ? & ?) (? & ? & ?). repeat split; congruence. Qed.

Lemma quiet_append (es : list event) (w : world) :
  stdout_of es = [] -> quiet w (append_trace es w).
Proof.
  intros H. repeat split. cbn [append_trace w_trace].
  now rewrite stdout_of_app, H, app_nil_r.
Qed.

Lemma quiet_set_stdin (inp : list stdin_item) (w : world) : quiet w (set_stdin inp w).
Proof. now repeat split. Qed.

Lemma stdout_of_warnings (logs : list event) :
  Forall (fun e => exists c, e = unresolved_warning c) logs -> stdout_of logs = [].
Proof. induction 1 as [|e es [c ->] _ IH]; [reflexivity | exact IH]. Qed.


Section NegotiationRuns.

Variable env : environment.
Variable host : option str.
Variable initial_port : Z.

#[local] Abbreviation occupied port :=
  (forall w, fst (is_port_in_use env host port w) = Return true).
#[local] Abbreviation free port :=
  (forall w, fst (is_port_in_use env host port w) = Return false).

Lemma prompt_loop_run (inp : list stdin_item) :
  forall (port : Z) (w : world) (r : outcome Z) (w' : world),
    w_stdin w = inp ->
    occupied port ->
    prompt_loop env host initial_port inp port w = (r, w') ->
    quiet w w'
    /\ exists consumed, inp = consumed ++ w_stdin w' /\ ends_well env host port consumed r.
Proof.
  induction inp as [|item rest IH]; intros port w r w' Hin Hocc.
  - rewrite prompt_loop_eof. intros [= <- <-]. split.
    + now apply quiet_append.
    + exists []. cbn [append_trace w_stdin]. split; [now rewrite Hin|]. now left.
  - destruct item as [s|].
    2: { rewrite prompt_loop_interrupt. intros [= <- <-]. split.
         - eapply quiet_trans; [apply quiet_set_stdin | now apply quiet_append].
         - exists [Interrupt]. split; [reflexivity | now left]. }
    rewrite prompt_loop_line. cbv zeta.
    set (w1 := append_trace [Stderr (prompt_text port)] (set_stdin rest w)).
    assert (Q1 : quiet w w1).
    { eapply quiet_trans; [apply quiet_set_stdin | now apply quiet_append]. }
    destruct (str_eqb (lower (unicode_lower env) (strip s)) (lit "y")) eqn:Hy.
    + destruct (is_port_in_use_pure env host (port + 1)) as (r1 & logs & Hrun & Hlogs & Hexn).
      pose proof (stdout_of_warnings _ Hlogs) as Hquiet.
      rewrite (check_port_cases env host initial_port _ _ _ _ _ Hrun).
      destruct r1 as [[|]|e].
      * change (w_isatty w1) with (w_isatty w). destruct (w_isatty w).
        -- intros Hloop.
           apply IH in Hloop as (Q2 & consumed & Hrest & Hend);
             [ | reflexivity | intros w0; now rewrite Hrun ].
           split.
           ++ eapply quiet_trans; [exact Q1|].
              eapply quiet_trans; [|exact Q2].
              apply quiet_append. now rewrite stdout_of_app, Hquiet.
           ++ exists (Line s :: consumed). split; [now rewrite Hrest|].
              destruct r as [p|e]; [|exact Hend].
              destruct Hend as (-> & Hbetween & Hfree).
              cbn [ends_well List.filter accepts]. rewrite Hy. cbn [length].
              split; [lia|]. split; [|exact Hfree].
              intros q Hq. destruct (decide (q = port)) as [->|]; [exact Hocc|].
              apply Hbetween. lia.
        -- intros [= <- <-]. split.
           ++ eapply quiet_trans; [exact Q1|].
              apply quiet_append. now rewrite stdout_of_app, Hquiet.
           ++ exists [Line s]. split; [reflexivity | now left].
      * intros [= <- <-]. split.
        -- eapply quiet_trans; [exact Q1|]. apply quiet_append.
           rewrite stdout_of_app, Hquiet. now destruct (port + 1 =? initial_port).
        -- exists [Line s]. split; [reflexivity|].
           cbn [ends_well List.filter accepts]. rewrite Hy. cbn [length].
           split; [lia|]. split.
           ++ intros q Hq. assert (q = port) as -> by lia. exact Hocc.
           ++ intros w0. now rewrite Hrun.
      * intros [= <- <-]. split.
        -- eapply quiet_trans; [exact Q1 | now apply quiet_append].
        -- exists [Line s]. split; [reflexivity|]. right. now apply Hexn.
    + destruct (str_eqb (lower (unicode_lower env) (strip s)) (lit "n")).
      * intros [= <- <-]. split.
        -- eapply quiet_trans; [exact Q1 | now apply quiet_append].
        -- exists [Line s]. split; [reflexivity | now left].
      * intros Hloop.
        apply IH in Hloop as (Q2 & consumed & Hrest & Hend);
          [ | reflexivity | exact Hocc ].
        split.
        -- eapply quiet_trans; [exact Q1|].
           eapply quiet_trans; [|exact Q2]. now apply quiet_append.
        -- exists (Line s :: consumed). split; [now rewrite Hrest|].
           destruct r as [p|e]; [|exact Hend].
           cbn [ends_well List.filter accepts]. now rewrite Hy.
Qed.

(** The whole negotiation. *)
Lemma prompt_for_available_port_run (w : world) (r : outcome Z) (w' : world) :
  prompt_for_available_port env host initial_port w = (r, w') ->
  quiet w w'
  /\ exists consumed,
       w_stdin w = consumed ++ w_stdin w' /\ ends_well env host initial_port consumed r.
Proof.
  unfold prompt_for_available_port.
  destruct (is_port_in_use_pure env host initial_port)
    as (r1 & logs & Hrun & Hlogs & Hexn).
  pose proof (stdout_of_warnings _ Hlogs) as Hquiet.
  rewrite (check_port_cases env host initial_port _ _ _ _ _ Hrun).
  destruct r1 as [[|]|e].
  - destruct (w_isatty w).
    + intros Hloop.
      apply prompt_loop_run in Hloop as (Q & consumed & Hrest & Hend);
        [ | reflexivity | intros w0; now rewrite Hrun ].
      split; [|eauto].
      eapply quiet_trans; [|exact Q].
      apply quiet_append. now rewrite stdout_of_app, Hquiet.
    + intros [= <- <-]. split.
      * apply quiet_append. now rewrite stdout_of_app, Hquiet.
      * exists []. split; [reflexivity | now left].
  - intros [= <- <-]. split.
    + apply quiet_append. rewrite stdout_of_app, Hquiet.
      now destruct (initial_port =? initial_port).
    + exists []. split; [reflexivity|]. cbn [ends_well List.filter length].
      split; [lia|]. split; [intros q Hq; lia|].
      intros w0. now rewrite Hrun.
  - intros [= <- <-]. split; [now apply quiet_append|].
    exists []. split; [reflexivity|]. right. now apply Hexn.
Qed.

End NegotiationRuns.

(* ===================================================================== *)
(** * Specified behaviour of the probe *)
(* ===================================================================== *)

Lemma iter_hosts_single (host : option str) :
  exists c, _iter_hosts_for_port_check host = [c].
Proof.
  destruct host as [h|]; cbn [_iter_hosts_for_port_check]; [|eauto].
  destruct (_ || _); [eauto|]. destruct (_ || _); eauto.
Qed.

Lemma connect_any_existsb (env : environment) (l : list addrinfo) :
  connect_any env l = existsb (fun ai => connect_ex env ai =? 0) l.
Proof.
  induction l as [|ai l IH]; [reflexivity|]. cbn [connect_any existsb].
  destruct (connect_ex env ai =? 0); [reflexivity | exact IH].
Qed.

(** A probe whose one candidate is [c] dials [c]. *)
Lemma single_candidate_dials (env : environment) (host : option str)
    (port : Z) (c : str) :
  _iter_hosts_for_port_check host = [c] -> dials env host port c.
Proof.
  intros Hc w. unfold is_port_in_use. rewrite Hc. cbn [probe_candidates].
  destruct (getaddrinfo env c port) as [l | []]; try reflexivity.
  rewrite <- connect_any_existsb. now destruct (connect_any env l).
Qed.

(** C3.  For a host that is [None], empty or [0.0.0.0] the probe dials
    the IPv4 loopback [127.0.0.1]; for [::] or [::0] it dials the IPv6
    loopback [::1]; any other host is dialled verbatim; and in every case
    exactly one candidate is produced.  Dialling an address means that the
    resolver is asked about that address and the outcome of
    [is_port_in_use] is decided by its answer. *)
Theorem iter_hosts_for_port_check_loopback (host : option str) :
  (host = None \/ host = Some [] \/ host = Some (lit "0.0.0.0") ->
   _iter_hosts_for_port_check host = [lit "127.0.0.1"]
   /\ (forall env port,
         is_port_in_use env host port
         = is_port_in_use env (Some (lit "127.0.0.1")) port)
   /\ forall env port, dials env host port (lit "127.0.0.1"))
  /\ (host = Some (lit "::") \/ host = Some (lit "::0") ->
      _iter_hosts_for_port_check host = [lit "::1"]
      /\ (forall env port,
            is_port_in_use env host port
            = is_port_in_use env (Some (lit "::1")) port)
      /\ forall env port, dials env host port (lit "::1"))
  /\ (forall h, host = Some h ->
        h <> lit "0.0.0.0" -> h <> [] -> h <> lit "::" -> h <> lit "::0" ->
        _iter_hosts_for_port_check host = [h]
        /\ forall env port, dials env host port h)
  /\ length (_iter_hosts_for_port_check host) = 1%nat.
Proof.
  split; [|split; [|split]].
  - intros [-> | [-> | ->]]; (split; [reflexivity|]); (split; [reflexivity|]);
      intros env port; now apply single_candidate_dials.
  - intros [-> | ->]; (split; [reflexivity|]); (split; [reflexivity|]);
      intros env port; now apply single_candidate_dials.
  - intros h -> H1 H2 H3 H4.
    assert (Hc : _iter_hosts_for_port_check (Some h) = [h]).
    { cbn [_iter_hosts_for_port_check].
      now rewrite !(proj2 (str_eqb_neq _ _)) by assumption. }
    split; [exact Hc|]. intros env port. now apply single_candidate_dials.
  - destruct host as [h|]; [|reflexivity]. cbn [_iter_hosts_for_port_check].
    destruct (_ || _); [reflexivity|]. now destruct (_ || _).
Qed.

Lemma iter_hosts_for_port_check_loopback_witness :
  (_iter_hosts_for_port_check (Some (lit "0.0.0.0")) = [lit "127.0.0.1"]
   /\ dials (host_with [8000]) (Some (lit "0.0.0.0")) 8000 (lit "127.0.0.1"))
  /\ (_iter_hosts_for_port_check (Some (lit "::")) = [lit "::1"]
      /\ dials (host_with [8000]) (Some (lit "::")) 8000 (lit "::1"))
  /\ (_iter_hosts_for_port_check (Some (lit "example.org")) = [lit "example.org"]
      /\ dials no_dns (Some (lit "example.org")) 80 (lit "example.org")).
Proof.
  split; [|split].
  - destruct (iter_hosts_for_port_check_loopback (Some (lit "0.0.0.0")))
      as (H & _).
    destruct H as (Hc & _ & Hd); [right; right; reflexivity|].
    split; [exact Hc | apply Hd].
  - destruct (iter_hosts_for_port_check_loopback (Some (lit "::")))
      as (_ & H & _).
    destruct H as (Hc & _ & Hd); [left; reflexivity|].
    split; [exact Hc | apply Hd].
  - destruct (iter_hosts_for_port_check_loopback (Some (lit "example.org")))
      as (_ & _ & H & _).
    destruct (H (lit "example.org")) as (Hc & Hd);
      [reflexivity | discriminate ..|].
    split; [exact Hc | apply Hd].
Defined.

Lemma connect_any_refused (env : environment) (l : list addrinfo) :
  (forall ai, ai ∈ l -> connect_ex env ai <> 0) -> connect_any env l = false.
Proof.
  induction l as [|ai l IH]; intros H; [reflexivity|]. cbn [connect_any].
  rewrite (proj2 (Z.eqb_neq _ _)) by (apply H; left).
  apply IH. intros ai' Hin. apply H. now right.
Qed.

Lemma probe_candidates_all_fail (env : environment) (port : Z)
    (candidates : list str) :
  (forall c, c ∈ candidates ->
     getaddrinfo env c port = inr gaierror
     \/ exists l, getaddrinfo env c port = inl l
                  /\ forall ai, ai ∈ l -> connect_ex env ai <> 0) ->
  forall w,
    probe_candidates env candidates port w =
      (Return false,
       append_trace
         (map unresolved_warning
            (List.filter (fun c => is_gaierror (getaddrinfo env c port)) candidates))
         w).
Proof.
  induction candidates as [|c rest IH]; intros H w.
  - cbn. now rewrite append_trace_nil.
  - cbn [probe_candidates List.filter].
    assert (Hrest : forall c', c' ∈ rest ->
              getaddrinfo env c' port = inr gaierror
              \/ exists l, getaddrinfo env c' port = inl l
                           /\ forall ai, ai ∈ l -> connect_ex env ai <> 0).
    { intros c' Hin. apply H. now right. }
    destruct (H c) as [-> | (l & -> & Hl)]; [left | | ]; cbn [is_gaierror].
    + unfold bind, log. rewrite (IH Hrest), emit_append, append_trace_app.
      reflexivity.
    + rewrite (connect_any_refused env l Hl). apply (IH Hrest).
Qed.

(** C9 (as amended).  A resolution failure of class [socket.gaierror]
    never reaches the caller of [is_port_in_use]: a candidate that fails
    to resolve in this way is logged with a warning and skipped, and when
    every candidate either fails so or has every connection attempt
    refused, the result is [False].  A resolution failure of any other
    class is not caught: it is raised to the caller, with nothing
    logged. *)
Theorem is_port_in_use_swallows_gaierror (env : environment)
    (host : option str) (port : Z) (w : world) :
  let candidates := _iter_hosts_for_port_check host in
  ((forall c, c ∈ candidates ->
      getaddrinfo env c port = inr gaierror
      \/ exists l, getaddrinfo env c port = inl l
                   /\ forall ai, ai ∈ l -> connect_ex env ai <> 0) ->
   is_port_in_use env host port w =
     (Return false,
      append_trace
        (map unresolved_warning
           (List.filter (fun c => is_gaierror (getaddrinfo env c port)) candidates))
        w))
  /\ (forall c e, c ∈ candidates ->
        getaddrinfo env c port = inr e -> e <> gaierror ->
        is_port_in_use env host port w = (Raise (NetError e), w)).
Proof.
  intros candidates. split.
  - intros H. now apply probe_candidates_all_fail.
  - intros c e Hin Hg Hne. unfold candidates in Hin.
    destruct (iter_hosts_single host) as [c' Hc]. rewrite Hc in Hin.
    apply elem_of_cons in Hin as [-> | Hin]; [|now apply elem_of_nil in Hin].
    rewrite (single_candidate_dials env host port c' Hc w), Hg.
    now destruct e.
Qed.

Lemma is_port_in_use_swallows_gaierror_witness :
  is_port_in_use no_dns (Some (lit "db.internal")) 5432 (console ∅ []) =
    (Return false,
     append_trace [unresolved_warning (lit "db.internal")] (console ∅ [])).
Proof.
  destruct (is_port_in_use_swallows_gaierror no_dns (Some (lit "db.internal"))
              5432 (console ∅ [])) as [H _].
  apply H. intros c _. now left.
Defined.

(** C9 as stated fails.  When resolving the candidate fails with an
    error that is not [socket.gaierror] (for the host [a..b] the IDNA
    codec raises [UnicodeError]), [is_port_in_use] does not return
    [False]: the exception reaches the caller. *)
Lemma is_port_in_use_raises_on_other_resolution_failure :
  getaddrinfo bad_names (lit "a..b") 80 = inr other_net_error
  /\ is_port_in_use bad_names (Some (lit "a..b")) 80 (console ∅ [])
     = (Raise (NetError other_net_error), console ∅ [])
  /\ fst (is_port_in_use bad_names (Some (lit "a..b")) 80 (console ∅ []))
     <> Return false.
Proof. repeat split. discriminate. Qed.

(* ===================================================================== *)
(** * Specified behaviour of the negotiation *)
(* ===================================================================== *)

Lemma unresolved_is_not_substitution (c : str) (p q : Z) :
  unresolved_warning c <> substitution_warning p q.
Proof. unfold unresolved_warning, substitution_warning. intros [= H]. Qed.

(** C6.  When the probe reports the initial port free,
    [prompt_for_available_port] returns it unchanged; the only events are
    those of the probe itself, so no prompt is written, no input is read
    and no substitution warning is logged.  In any run that returns, the
    substitution warning is among the new events only when the port
    returned differs from the initial one. *)
Theorem prompt_for_available_port_free (env : environment)
    (host : option str) (initial_port : Z) (w : world) :
  (fst (is_port_in_use env host initial_port w) = Return false ->
   exists logs,
     prompt_for_available_port env host initial_port w
     = (Return initial_port, append_trace logs w)
     /\ is_port_in_use env host initial_port w
        = (Return false, append_trace logs w)
     /\ w_stdin (append_trace logs w) = w_stdin w
     /\ (forall text, Stderr text ∉ logs)
     /\ (forall port, substitution_warning initial_port port ∉ logs))
  /\ (forall p w' es,
        prompt_for_available_port env host initial_port w = (Return p, w') ->
        w_trace w' = w_trace w ++ es ->
        substitution_warning initial_port p ∈ es ->
        p <> initial_port).
Proof.
  assert (Hfree_run :
    fst (is_port_in_use env host initial_port w) = Return false ->
    exists logs,
      prompt_for_available_port env host initial_port w
      = (Return initial_port, append_trace logs w)
      /\ is_port_in_use env host initial_port w
         = (Return false, append_trace logs w)
      /\ w_stdin (append_trace logs w) = w_stdin w
      /\ (forall text, Stderr text ∉ logs)
      /\ (forall port, substitution_warning initial_port port ∉ logs)).
  { intros Hfree.
    destruct (is_port_in_use_pure env host initial_port)
      as (r & logs & Hrun & Hlogs & _).
    rewrite Hrun in Hfree. cbn [fst] in Hfree. subst r.
    exists logs. split; [|split; [apply Hrun | split; [reflexivity|]]].
    - unfold prompt_for_available_port.
      rewrite (check_port_cases env host initial_port _ _ _ _ _ Hrun).
      now rewrite Z.eqb_refl, app_nil_r.
    - rewrite Forall_forall in Hlogs. split.
      + intros text Hin. apply Hlogs in Hin as [c Hc]. discriminate.
      + intros port Hin. apply Hlogs in Hin as [c Hc].
        symmetry in Hc. now apply unresolved_is_not_substitution in Hc. }
  split; [exact Hfree_run|].
  intros p w' es Hrun Htrace Hin ->.
  pose proof (prompt_for_available_port_run _ _ _ _ _ _ Hrun)
    as (_ & consumed & _ & _ & _ & Hfree).
  destruct (Hfree_run (Hfree w)) as (logs & Hrun' & _ & _ & _ & Hnone).
  rewrite Hrun' in Hrun. injection Hrun as <-.
  cbn [append_trace w_trace] in Htrace. apply app_inv_head in Htrace as <-.
  exact (Hnone _ Hin).
Qed.

Lemma prompt_for_available_port_free_witness :
  exists logs,
    prompt_for_available_port (host_with [9000]) (Some (lit "0.0.0.0")) 8000
      (console ∅ [Line (lit "n")])
    = (Return 8000, append_trace logs (console ∅ [Line (lit "n")]))
    /\ is_port_in_use (host_with [9000]) (Some (lit "0.0.0.0")) 8000
         (console ∅ [Line (lit "n")])
       = (Return false, append_trace logs (console ∅ [Line (lit "n")]))
    /\ w_stdin (append_trace logs (console ∅ [Line (lit "n")]))
       = w_stdin (console ∅ [Line (lit "n")])
    /\ (forall text, Stderr text ∉ logs)
    /\ (forall port, substitution_warning 8000 port ∉ logs).
Proof.
  destruct (prompt_for_available_port_free (host_with [9000])
              (Some (lit "0.0.0.0")) 8000 (console ∅ [Line (lit "n")]))
    as [H _].
  apply H. reflexivity.
Defined.

(** C4.  With ports [P] and [P+1] occupied, [P+2] free and the lines [y],
    [y] on an interactive standard input, the negotiation returns [P+2].
    In general the port returned is the initial one plus one for each
    accepted prompt: every port passed over was probed and found
    occupied, none is skipped, and no bound is put on the value ([P] is
    any integer). *)
Theorem prompt_for_available_port_steps (env : environment)
    (host : option str) (P : Z) (w : world) :
  ((forall w0, fst (is_port_in_use env host P w0) = Return true) ->
   (forall w0, fst (is_port_in_use env host (P + 1) w0) = Return true) ->
   (forall w0, fst (is_port_in_use env host (P + 2) w0) = Return false) ->
   w_isatty w = true ->
   forall rest, w_stdin w = Line (lit "y") :: Line (lit "y") :: rest ->
   exists w',
     prompt_for_available_port env host P w = (Return (P + 2), w')
     /\ w_stdin w' = rest)
  /\ (forall p w',
        prompt_for_available_port env host P w = (Return p, w') ->
        exists consumed,
          w_stdin w = consumed ++ w_stdin w'
          /\ p = P + Z.of_nat (length (List.filter (accepts env) consumed))
          /\ (forall q, P <= q < p ->
                forall w0, fst (is_port_in_use env host q w0) = Return true)
          /\ (forall w0, fst (is_port_in_use env host p w0) = Return false)).
Proof.
  split.
  - intros H0 H1 H2 Htty rest Hin.
    destruct (is_port_in_use_pure env host P) as (r0 & l0 & R0 & _).
    destruct (is_port_in_use_pure env host (P + 1)) as (r1 & l1 & R1 & _).
    destruct (is_port_in_use_pure env host (P + 2)) as (r2 & l2 & R2 & _).
    specialize (H0 w). specialize (H1 w). specialize (H2 w).
    rewrite R0 in H0. rewrite R1 in H1. rewrite R2 in H2.
    cbn [fst] in H0, H1, H2. subst r0 r1 r2.
    unfold prompt_for_available_port.
    rewrite (check_port_cases env host P _ _ _ _ _ R0), Htty, Hin.
    rewrite prompt_loop_line. cbv zeta.
    change (str_eqb (lower (unicode_lower env) (strip (lit "y"))) (lit "y"))
      with true. cbv iota.
    rewrite (check_port_cases env host P _ _ _ _ _ R1).
    cbn [w_isatty append_trace set_stdin]. rewrite Htty.
    rewrite prompt_loop_line. cbv zeta.
    change (str_eqb (lower (unicode_lower env) (strip (lit "y"))) (lit "y"))
      with true. cbv iota.
    replace (P + 1 + 1) with (P + 2) by lia.
    rewrite (check_port_cases env host P _ _ _ _ _ R2).
    eexists. split; reflexivity.
  - intros p w' H.
    apply prompt_for_available_port_run in H as (_ & consumed & Hin & Hend).
    exists consumed. split; [exact Hin | exact Hend].
Qed.

Lemma prompt_for_available_port_steps_witness :
  exists w',
    prompt_for_available_port (host_with [65535; 65536]) (Some (lit "0.0.0.0"))
      65535 (console ∅ [Line (lit "y"); Line (lit "y"); Line (lit "n")])
    = (Return (65535 + 2), w')
    /\ w_stdin w' = [Line (lit "n")].
Proof.
  destruct (prompt_for_available_port_steps (host_with [65535; 65536])
              (Some (lit "0.0.0.0")) 65535
              (console ∅ [Line (lit "y"); Line (lit "y"); Line (lit "n")]))
    as [H _].
  apply H; reflexivity.
Defined.

(* ===================================================================== *)
(** * Specified behaviour of the command line entry *)
(* ===================================================================== *)

(** [update_env_port] prints nothing on standard output. *)
Lemma update_env_port_stdout (env : environment) (port : Z)
    (env_path : option path) (w : world) (r : outcome bool) (w' : world) :
  update_env_port env port env_path w = (r, w') ->
  stdout_of (w_trace w') = stdout_of (w_trace w).
Proof.
  destruct (mkdir_parents (parent (_resolve_env_path env env_path)) (w_fs w))
    as [[[]|e] m1] eqn:Hmk.
  - rewrite (update_env_port_run _ _ _ _ _ Hmk).
    destruct (stat m1 _) as [[|c]|];
      try (intros [= <- <-]; reflexivity);
      destruct (scan_lines _ _ 0 _); intros [= <- <-];
      try reflexivity;
      cbn [written emit set_fs w_trace]; rewrite stdout_of_app; apply app_nil_r.
  - rewrite (update_env_port_mkdir_fails _ _ _ _ _ _ Hmk). now intros [= <- <-].
Qed.

(** C2.  Every abort of the negotiation ends the process at once with a
    non-zero exit status, with the file system as it was and with nothing
    printed on standard output; an occupied port without a terminal, an
    unreadable input and the answer [n] are such aborts, with status 1;
    and the three output lines appear only when both the negotiation and
    the file update have returned. *)
Theorem main_abort_is_clean (env : environment) (w : world) :
  let host := HOST env in
  let initial_port := PORT env in
  let negotiate := prompt_for_available_port env host initial_port in
  (forall e w1,
     negotiate w = (Raise e, w1) ->
     main env w = (Raise e, w1)
     /\ exit_status (fst (main env w)) <> 0
     /\ w_fs w1 = w_fs w
     /\ stdout_of (w_trace w1) = stdout_of (w_trace w))
  /\ (fst (is_port_in_use env host initial_port w) = Return true ->
      (w_isatty w = false -> fst (negotiate w) = Raise (SystemExit 1))
      /\ (w_isatty w = true ->
          w_stdin w = [] \/ (exists rest, w_stdin w = Interrupt :: rest) ->
          fst (negotiate w) = Raise (SystemExit 1))
      /\ (w_isatty w = true ->
          forall s rest, w_stdin w = Line s :: rest ->
          lower (unicode_lower env) (strip s) = lit "n" ->
          fst (negotiate w) = Raise (SystemExit 1)))
  /\ (forall r w',
        main env w = (r, w') ->
        stdout_of (w_trace w') <> stdout_of (w_trace w) ->
        exists port w1 changed w2,
          negotiate w = (Return port, w1)
          /\ update_env_port env port None w1 = (Return changed, w2)
          /\ r = Return tt
          /\ stdout_of (w_trace w')
             = stdout_of (w_trace w)
               ++ [str_of_host host ++ [LF]; str_of_int port ++ [LF];
                   (if changed then lit "1" else lit "0") ++ [LF]]).
Proof.
  intros host initial_port negotiate. split; [|split].
  - intros e w1 H.
    assert (Hmain : main env w = (Raise e, w1)).
    { unfold main, bind. fold host initial_port negotiate. now rewrite H. }
    apply prompt_for_available_port_run in H as ((Hfs & _ & Hout) & consumed & _ & Hend).
    rewrite Hmain. repeat split; try assumption.
    cbn [fst]. destruct Hend as [-> | [n ->]]; discriminate.
  - intros Hbusy. unfold negotiate, prompt_for_available_port.
    destruct (is_port_in_use_pure env host initial_port) as (r0 & l0 & R0 & _).
    rewrite R0 in Hbusy. cbn [fst] in Hbusy. subst r0.
    rewrite (check_port_cases env host initial_port _ _ _ _ _ R0).
    split; [|split].
    + now intros ->.
    + intros -> [-> | [rest ->]].
      * now rewrite prompt_loop_eof.
      * now rewrite prompt_loop_interrupt.
    + intros -> s rest -> Hn. rewrite prompt_loop_line. cbv zeta. rewrite Hn.
      reflexivity.
  - intros r w' Hmain Hout. unfold main, bind in Hmain.
    fold host initial_port negotiate in Hmain.
    destruct (negotiate w) as [[port|e] w1] eqn:Hneg.
    2: { injection Hmain as <- <-. exfalso. apply Hout.
         now apply prompt_for_available_port_run in Hneg as ((_ & _ & ?) & _). }
    assert (Hout1 : stdout_of (w_trace w1) = stdout_of (w_trace w)).
    { now apply prompt_for_available_port_run in Hneg as ((_ & _ & ?) & _). }
    destruct (update_env_port env port None w1) as [[changed|e] w2] eqn:Hupd.
    2: { injection Hmain as <- <-. exfalso. apply Hout.
         rewrite <- Hout1. eapply update_env_port_stdout. eassumption. }
    pose proof (update_env_port_stdout _ _ _ _ _ _ Hupd) as Hout2.
    unfold print, ret in Hmain. injection Hmain as <- <-.
    exists port, w1, changed, w2. repeat split; [exact Hupd|].
    cbn [emit w_trace]. rewrite !stdout_of_app, Hout2, Hout1.
    cbn [stdout_of]. now rewrite <- !app_assoc.
Qed.

Lemma main_abort_is_clean_witness :
  let w := console (dotenv (lit "PORT=8000" ++ [LF])) [Line (lit " N ")] in
  exists w1,
    main (host_with [8000]) w = (Raise (SystemExit 1), w1)
    /\ exit_status (fst (main (host_with [8000]) w)) <> 0
    /\ w_fs w1 = w_fs w
    /\ stdout_of (w_trace w1) = stdout_of (w_trace w).
Proof.
  intros w.
  destruct (main_abort_is_clean (host_with [8000]) w) as [H _].
  exists (snd (main (host_with [8000]) w)). apply H. reflexivity.
Defined.

(* ===================================================================== *)
(** * Further properties of the probe *)
(* ===================================================================== *)

Lemma connect_any_true_iff (env : environment) (l : list addrinfo) :
  connect_any env l = true <-> exists ai, ai ∈ l /\ connect_ex env ai = 0.
Proof.
  induction l as [|a l IH]; cbn [connect_any].
  - split; [discriminate|]. intros (ai & Hin & _). now apply elem_of_nil in Hin.
  - destruct (connect_ex env a =? 0) eqn:E.
    + apply Z.eqb_eq in E. split; [|reflexivity]. intros _. exists a. split; [left|assumption].
    + apply Z.eqb_neq in E. rewrite IH. split.
      * intros (ai & Hin & H0). exists ai. split; [now right | assumption].
      * intros (ai & Hin & H0). apply elem_of_cons in Hin as [-> | Hin];
          [contradiction | eauto].
Qed.

(** The one exception the probe lets through. *)
Lemma probe_raises_other (env : environment) (host : option str) (port : Z)
    (w : world) (e : exn) :
  fst (is_port_in_use env host port w) = Raise e ->
  e = NetError other_net_error.
Proof.
  destruct (iter_hosts_single host) as [c Hc].
  unfold is_port_in_use. rewrite Hc. cbn [probe_candidates].
  destruct (getaddrinfo env c port) as [l | []].
  - destruct (connect_any env l); discriminate.
  - discriminate.
  - now intros [= <-].
Qed.

(** X1.  [is_port_in_use] reports the port in use exactly when the
    address it dials resolves and one of the resolved socket addresses
    accepts the connection; in that case nothing is logged. *)
Theorem is_port_in_use_true_iff (env : environment) (host : option str)
    (port : Z) (w : world) :
  (fst (is_port_in_use env host port w) = Return true <->
   exists c l ai,
     _iter_hosts_for_port_check host = [c]
     /\ getaddrinfo env c port = inl l
     /\ ai ∈ l /\ connect_ex env ai = 0)
  /\ (fst (is_port_in_use env host port w) = Return true ->
      is_port_in_use env host port w = (Return true, w)).
Proof.
  destruct (iter_hosts_single host) as [c Hc].
  unfold is_port_in_use. rewrite Hc. cbn [probe_candidates].
  destruct (getaddrinfo env c port) as [l | []] eqn:Hg.
  - destruct (connect_any env l) eqn:Hany; cbn [ret fst]; split.
    + split; [|reflexivity]. intros _.
      apply connect_any_true_iff in Hany as (ai & Hin & H0). eauto 8.
    + reflexivity.
    + split; [discriminate|]. intros (c' & l' & ai & [= <-] & Hl & Hin & H0).
      rewrite Hg in Hl. injection Hl as <-.
      assert (connect_any env l = true) by (apply connect_any_true_iff; eauto).
      congruence.
    + discriminate.
  - unfold bind, log, ret. cbn [fst]. split; [|discriminate].
    split; [discriminate|]. intros (c' & l' & ai & [= <-] & Hl & _). congruence.
  - unfold raise. cbn [fst]. split; [|discriminate].
    split; [discriminate|]. intros (c' & l' & ai & [= <-] & Hl & _). congruence.
Qed.

Lemma is_port_in_use_true_iff_witness :
  is_port_in_use (host_with [8000]) (Some (lit "0.0.0.0")) 8000 (console ∅ [])
  = (Return true, console ∅ []).
Proof.
  apply (is_port_in_use_true_iff (host_with [8000]) (Some (lit "0.0.0.0")) 8000
           (console ∅ [])).
  reflexivity.
Defined.

(** X2.  Only [socket.gaierror] is caught: [is_port_in_use] raises
    exactly when resolving the dialled address fails with another error,
    which then reaches the caller with nothing logged. *)
Theorem is_port_in_use_raises_other_errors (env : environment)
    (host : option str) (port : Z) (w : world) (e : exn) :
  (fst (is_port_in_use env host port w) = Raise e <->
   exists c,
     _iter_hosts_for_port_check host = [c]
     /\ getaddrinfo env c port = inr other_net_error
     /\ e = NetError other_net_error)
  /\ (fst (is_port_in_use env host port w) = Raise e ->
      snd (is_port_in_use env host port w) = w).
Proof.
  destruct (iter_hosts_single host) as [c Hc].
  unfold is_port_in_use. rewrite Hc. cbn [probe_candidates].
  destruct (getaddrinfo env c port) as [l | []] eqn:Hg.
  - destruct (connect_any env l); cbn [ret fst snd];
      (split; [|discriminate]); (split; [discriminate|]);
      intros (c' & [= <-] & Hg' & _); congruence.
  - unfold bind, log, ret. cbn [fst snd]. split; [|discriminate].
    split; [discriminate|]. intros (c' & [= <-] & Hg' & _). congruence.
  - unfold raise. cbn [fst snd]. split; [|reflexivity]. split.
    + intros [= <-]. eauto.
    + intros (c' & _ & _ & ->). reflexivity.
Qed.

Lemma is_port_in_use_raises_other_errors_witness :
  snd (is_port_in_use bad_names (Some (lit "bad name")) 80 (console ∅ []))
  = console ∅ [].
Proof.
  apply (is_port_in_use_raises_other_errors bad_names (Some (lit "bad name")) 80
           (console ∅ []) (NetError other_net_error)).
  reflexivity.
Defined.

(** X3.  A probe leaves the files, the pending input and standard output
    and error alone: all it adds to the trace are warnings about
    unresolved names, at most one per call, and what it reports does not
    depend on the world it runs in. *)
Theorem is_port_in_use_only_warns (env : environment) (host : option str)
    (port : Z) (w : world) :
  exists logs,
    snd (is_port_in_use env host port w) = append_trace logs w
    /\ (logs = [] \/ exists c, logs = [unresolved_warning c]
                               /\ _iter_hosts_for_port_check host = [c]
                               /\ getaddrinfo env c port = inr gaierror)
    /\ forall w0,
         is_port_in_use env host port w0
         = (fst (is_port_in_use env host port w), append_trace logs w0).
Proof.
  destruct (iter_hosts_single host) as [c Hc].
  unfold is_port_in_use. rewrite Hc. cbn [probe_candidates].
  destruct (getaddrinfo env c port) as [l | []] eqn:Hg.
  - exists []. destruct (connect_any env l); cbn [ret fst snd];
      (split; [now rewrite append_trace_nil|]); (split; [now left|]);
      intros w0; now rewrite append_trace_nil.
  - exists [unresolved_warning c]. unfold bind, log, ret. cbn [fst snd].
    split; [reflexivity|]. split; [right; eauto|]. reflexivity.
  - exists []. unfold raise. cbn [fst snd].
    split; [now rewrite append_trace_nil|]. split; [now left|].
    intros w0. now rewrite append_trace_nil.
Qed.

(* ===================================================================== *)
(** * Further properties of the negotiation *)
(* ===================================================================== *)

Lemma lstrip_spaces (ws s : str) :
  Forall (fun c => isspace c = true) ws -> lstrip (ws ++ s) = lstrip s.
Proof.
  induction 1 as [|c ws Hc _ IH]; [reflexivity|].
  cbn [app lstrip]. now rewrite Hc.
Qed.

Lemma strip_padded (ws1 ws2 : str) (c : char) :
  Forall (fun x => isspace x = true) ws1 ->
  Forall (fun x => isspace x = true) ws2 ->
  isspace c = false ->
  strip (ws1 ++ c :: ws2) = [c].
Proof.
  intros H1 H2 Hc. unfold strip, rstrip.
  rewrite lstrip_spaces, lstrip_head by assumption.
  cbn [rev]. rewrite lstrip_spaces by (now apply Forall_rev).
  now rewrite lstrip_head.
Qed.

(** X4.  The answer to the prompt is read leniently: white space around
    it and its case do not matter.  A line that is [y] or [Y] between any
    white space is treated exactly as [y], and one that is [n] or [N] as
    [n]. *)
Theorem prompt_loop_answer_is_trimmed_and_lowered (env : environment)
    (host : option str) (initial_port : Z) (ws1 ws2 : str) (c : char)
    (rest : list stdin_item) (port : Z) (w : world) :
  Forall (fun x => isspace x = true) ws1 ->
  Forall (fun x => isspace x = true) ws2 ->
  (c = 121%N \/ c = 89%N ->
   prompt_loop env host initial_port (Line (ws1 ++ c :: ws2) :: rest) port w
   = prompt_loop env host initial_port (Line (lit "y") :: rest) port w)
  /\ (c = 110%N \/ c = 78%N ->
      prompt_loop env host initial_port (Line (ws1 ++ c :: ws2) :: rest) port w
      = prompt_loop env host initial_port (Line (lit "n") :: rest) port w).
Proof.
  intros H1 H2.
  split; intros [-> | ->]; rewrite !prompt_loop_line; cbv zeta;
    rewrite (strip_padded ws1 ws2) by (assumption || reflexivity);
    reflexivity.
Qed.

Lemma prompt_loop_answer_is_trimmed_and_lowered_witness :
  prompt_loop (host_with [8000]) (Some (lit "0.0.0.0")) 8000
    (Line (lit "  " ++ 89%N :: lit " ") :: []) 8000 (console ∅ [])
  = prompt_loop (host_with [8000]) (Some (lit "0.0.0.0")) 8000
      (Line (lit "y") :: []) 8000 (console ∅ []).
Proof.
  destruct (prompt_loop_answer_is_trimmed_and_lowered (host_with [8000])
              (Some (lit "0.0.0.0")) 8000 (lit "  ") (lit " ") 89%N []
              8000 (console ∅ [])) as [H _].
  - repeat constructor.
  - repeat constructor.
  - apply H. now right.
Defined.

Section MoreNegotiation.

Variable env : environment.
Variable host : option str.
Variable initial_port : Z.

(** The outcome of the prompt loop depends on the world only through the
    terminal flag, and not on the lines it does not act on. *)
Lemma prompt_loop_skips_noise (inp : list stdin_item) :
  forall (port : Z) (w w' : world),
    w_isatty w = w_isatty w' ->
    fst (prompt_loop env host initial_port inp port w)
    = fst (prompt_loop env host initial_port
             (List.filter (is_answer env) inp) port w').
Proof.
  induction inp as [|item rest IH]; intros port w w' Htty.
  - cbn [List.filter]. now rewrite !prompt_loop_eof.
  - destruct item as [s|]; cbn [List.filter is_answer]; cbv zeta.
    2: { now rewrite !prompt_loop_interrupt. }
    rewrite prompt_loop_line. cbv zeta.
    destruct (str_eqb (lower (unicode_lower env) (strip s)) (lit "y")) eqn:Hy.
    + cbn [orb]. rewrite prompt_loop_line. cbv zeta. rewrite Hy.
      destruct (is_port_in_use_pure env host (port + 1))
        as (r1 & logs & Hrun & _).
      rewrite !(check_port_cases env host initial_port _ _ _ _ _ Hrun).
      destruct r1 as [[|]|e]; try reflexivity.
      cbn [append_trace set_stdin w_isatty]. rewrite <- Htty.
      destruct (w_isatty w) eqn:E; [|reflexivity].
      apply IH. cbn [append_trace set_stdin w_isatty]. congruence.
    + cbn [orb].
      destruct (str_eqb (lower (unicode_lower env) (strip s)) (lit "n")) eqn:Hn.
      * rewrite prompt_loop_line. cbv zeta. now rewrite Hy, Hn.
      * apply IH. cbn [append_trace set_stdin w_isatty]. congruence.
Qed.

End MoreNegotiation.

(** X5.  Lines that are neither [y] nor [n] do not influence the
    negotiation: the port returned, or the exception raised, is the one
    obtained with those lines removed from standard input. *)
Theorem prompt_for_available_port_ignores_noise (env : environment)
    (host : option str) (initial_port : Z) (w : world) :
  fst (prompt_for_available_port env host initial_port w)
  = fst (prompt_for_available_port env host initial_port
           (set_stdin (List.filter (is_answer env) (w_stdin w)) w)).
Proof.
  unfold prompt_for_available_port. cbn [w_stdin set_stdin].
  destruct (is_port_in_use_pure env host initial_port) as (r & logs & Hrun & _).
  rewrite !(check_port_cases env host initial_port _ _ _ _ _ Hrun).
  destruct r as [[|]|e]; try reflexivity.
  cbn [w_isatty set_stdin]. destruct (w_isatty w) eqn:E; [|reflexivity].
  apply prompt_loop_skips_noise. reflexivity.
Qed.

(** X6.  Without a terminal the negotiation asks nothing: it neither
    writes to standard error nor reads standard input.  It probes the
    initial port once and what the probe reports decides the outcome: a
    free port is returned as it is, an occupied one makes the run log the
    conflict and the refusal and raise [SystemExit(1)], and an error of
    the probe is passed on. *)
Theorem prompt_for_available_port_without_tty (env : environment)
    (host : option str) (initial_port : Z) (w : world)
    (r : outcome Z) (w' : world) :
  w_isatty w = false ->
  prompt_for_available_port env host initial_port w = (r, w') ->
  let probe := is_port_in_use env host initial_port w in
  w_stdin w' = w_stdin w
  /\ (exists es, w_trace w' = w_trace w ++ es
                 /\ forall text, Stderr text ∉ es)
  /\ (r = Return initial_port
      \/ (r = Raise (SystemExit 1) /\ fst probe = Return true)
      \/ r = Raise (NetError other_net_error))
  /\ (fst probe = Return false ->
      r = Return initial_port /\ w' = snd probe)
  /\ (fst probe = Return true ->
      r = Raise (SystemExit 1)
      /\ w' = append_trace [busy_warning initial_port; no_tty_error] (snd probe))
  /\ (forall e, fst probe = Raise e -> r = Raise e /\ w' = snd probe).
Proof.
  intros Htty. unfold prompt_for_available_port.
  destruct (is_port_in_use_pure env host initial_port)
    as (r0 & logs & Hrun & Hlogs & Hexn).
  rewrite (check_port_cases env host initial_port _ _ _ _ _ Hrun), Htty, Hrun.
  cbv zeta. cbn [fst snd].
  rewrite Forall_forall in Hlogs.
  assert (Hno : forall text, Stderr text ∉ logs).
  { intros text Hin. apply Hlogs in Hin as [c Hc]. discriminate. }
  destruct r0 as [[|]|e]; intros [= <- <-]; cbn [append_trace w_stdin w_trace];
    (split; [reflexivity|]); split.
  - eexists. split; [reflexivity|]. intros text Hin.
    apply elem_of_app in Hin as [Hin | Hin]; [now apply Hno in Hin|].
    repeat (apply elem_of_cons in Hin as [Hin | Hin]; [discriminate|]).
    now apply elem_of_nil in Hin.
  - split; [right; left; now split|].
    split; [discriminate|]. split; [|discriminate].
    intros _. split; [reflexivity|].
    unfold append_trace. cbn [w_fs w_stdin w_isatty w_trace].
    now rewrite <- app_assoc.
  - eexists. split; [reflexivity|]. intros text Hin.
    apply elem_of_app in Hin as [Hin | Hin]; [now apply Hno in Hin|].
    destruct (initial_port =? initial_port); [now apply elem_of_nil in Hin|].
    apply elem_of_cons in Hin as [Hin | Hin]; [discriminate|].
    now apply elem_of_nil in Hin.
  - split; [now left|]. split; [|split; discriminate].
    intros _. split; [reflexivity|].
    unfold append_trace. cbn [w_fs w_stdin w_isatty w_trace].
    now rewrite Z.eqb_refl, app_nil_r.
  - eexists. split; [reflexivity|]. apply Hno.
  - split.
    + right. right. f_equal.
      apply (probe_raises_other env host initial_port w). now rewrite Hrun.
    + split; [discriminate|]. split; [discriminate|].
      intros e' [= <-]. now split.
Qed.

Lemma prompt_for_available_port_without_tty_witness :
  let w := World ∅ [Line (lit "y")] false [] in
  let run := prompt_for_available_port (host_with [8000]) (Some (lit "0.0.0.0"))
               8000 w in
  let probe := is_port_in_use (host_with [8000]) (Some (lit "0.0.0.0")) 8000 w in
  w_stdin (snd run) = w_stdin w
  /\ (exists es, w_trace (snd run) = w_trace w ++ es
                 /\ forall text, Stderr text ∉ es)
  /\ (fst run = Return 8000
      \/ (fst run = Raise (SystemExit 1) /\ fst probe = Return true)
      \/ fst run = Raise (NetError other_net_error))
  /\ (fst probe = Return false -> fst run = Return 8000 /\ snd run = snd probe)
  /\ (fst probe = Return true ->
      fst run = Raise (SystemExit 1)
      /\ snd run = append_trace [busy_warning 8000; no_tty_error] (snd probe))
  /\ (forall e, fst probe = Raise e -> fst run = Raise e /\ snd run = snd probe).
Proof.
  intros w run probe.
  apply (prompt_for_available_port_without_tty (host_with [8000])
           (Some (lit "0.0.0.0")) 8000 w (fst run) (snd run)).
  - reflexivity.
  - reflexivity.
Defined.

Section NegotiationTrace.

Variable env : environment.
Variable host : option str.
Variable initial_port : Z.

(** The prompt loop only appends to the trace, and a port other than the
    initial one is announced by the last event of the run. *)
Lemma prompt_loop_trace (inp : list stdin_item) :
  forall (port : Z) (w : world) (r : outcome Z) (w' : world),
    prompt_loop env host initial_port inp port w = (r, w') ->
    exists es,
      w_trace w' = w_trace w ++ es
      /\ forall p, r = Return p -> p <> initial_port ->
           exists es', es = es' ++ [substitution_warning initial_port p].
Proof.
  induction inp as [|item rest IH]; intros port w r w'.
  - rewrite prompt_loop_eof. intros [= <- <-]. eexists. split; [reflexivity|].
    discriminate.
  - destruct item as [s|].
    2: { rewrite prompt_loop_interrupt. intros [= <- <-]. eexists.
         split; [reflexivity | discriminate]. }
    rewrite prompt_loop_line. cbv zeta.
    set (w1 := append_trace [Stderr (prompt_text port)] (set_stdin rest w)).
    assert (T1 : w_trace w1 = w_trace w ++ [Stderr (prompt_text port)])
      by reflexivity.
    destruct (str_eqb (lower (unicode_lower env) (strip s)) (lit "y")).
    + destruct (is_port_in_use_pure env host (port + 1))
        as (r1 & logs & Hrun & _).
      rewrite (check_port_cases env host initial_port _ _ _ _ _ Hrun).
      destruct r1 as [[|]|e].
      * destruct (w_isatty w1).
        -- intros Hloop. apply IH in Hloop as (es & Htr & Hlast).
           cbn [append_trace w_trace] in Htr. rewrite T1 in Htr.
           exists ([Stderr (prompt_text port)]
                     ++ (logs ++ [busy_warning (port + 1)]) ++ es).
           split; [now rewrite Htr, <- !app_assoc|].
           intros p Hp Hne. destruct (Hlast p Hp Hne) as [es' ->].
           eexists. now rewrite !app_assoc.
        -- intros [= <- <-]. eexists. cbn [append_trace w_trace]. rewrite T1.
           split; [now rewrite <- app_assoc | discriminate].
      * intros [= <- <-]. eexists. cbn [append_trace w_trace]. rewrite T1.
        split; [now rewrite <- app_assoc|].
        intros p [= <-] Hne. rewrite (proj2 (Z.eqb_neq _ _) Hne).
        eexists. now rewrite !app_assoc.
      * intros [= <- <-]. eexists. cbn [append_trace w_trace]. rewrite T1.
        split; [now rewrite <- app_assoc | discriminate].
    + destruct (str_eqb (lower (unicode_lower env) (strip s)) (lit "n")).
      * intros [= <- <-]. eexists. cbn [append_trace w_trace]. rewrite T1.
        split; [now rewrite <- app_assoc | discriminate].
      * intros Hloop. apply IH in Hloop as (es & Htr & Hlast).
        cbn [append_trace w_trace] in Htr. rewrite T1 in Htr.
        exists ([Stderr (prompt_text port)] ++ [retry_hint] ++ es).
        split; [now rewrite Htr, <- !app_assoc|].
        intros p Hp Hne. destruct (Hlast p Hp Hne) as [es' ->].
        eexists. now rewrite !app_assoc.
Qed.

Lemma prompt_for_available_port_trace (w : world) (r : outcome Z) (w' : world) :
  prompt_for_available_port env host initial_port w = (r, w') ->
  exists es,
    w_trace w' = w_trace w ++ es
    /\ forall p, r = Return p -> p <> initial_port ->
         exists es', es = es' ++ [substitution_warning initial_port p].
Proof.
  unfold prompt_for_available_port.
  destruct (is_port_in_use_pure env host initial_port) as (r0 & logs & Hrun & _).
  rewrite (check_port_cases env host initial_port _ _ _ _ _ Hrun).
  destruct r0 as [[|]|e].
  - destruct (w_isatty w).
    + intros Hloop. apply prompt_loop_trace in Hloop as (es & Htr & Hlast).
      cbn [append_trace w_trace] in Htr.
      exists ((logs ++ [busy_warning initial_port]) ++ es).
      split; [now rewrite Htr, <- !app_assoc|].
      intros p Hp Hne. destruct (Hlast p Hp Hne) as [es' ->].
      eexists. now rewrite !app_assoc.
    + intros [= <- <-]. eexists. split; [reflexivity | discriminate].
  - intros [= <- <-]. eexists. split; [reflexivity|].
    intros p [= <-] Hne. contradiction.
  - intros [= <- <-]. eexists. split; [reflexivity | discriminate].
Qed.

End NegotiationTrace.

(** X7.  In every run, whatever its outcome, the negotiation leaves the
    file system alone, prints nothing on standard output, only appends to
    the trace, and consumes a prefix of the pending input. *)
Theorem prompt_for_available_port_frame (env : environment)
    (host : option str) (initial_port : Z) (w : world)
    (r : outcome Z) (w' : world) :
  prompt_for_available_port env host initial_port w = (r, w') ->
  w_fs w' = w_fs w
  /\ w_isatty w' = w_isatty w
  /\ (exists es, w_trace w' = w_trace w ++ es /\ stdout_of es = [])
  /\ (exists consumed, w_stdin w = consumed ++ w_stdin w').
Proof.
  intros H.
  pose proof (prompt_for_available_port_trace _ _ _ _ _ _ H) as (es & Htr & _).
  apply prompt_for_available_port_run in H
    as ((Hfs & Htty & Hout) & consumed & Hin & _).
  repeat split; try assumption; [|eauto].
  exists es. split; [assumption|].
  rewrite Htr, stdout_of_app in Hout.
  rewrite <- (app_nil_r (stdout_of (w_trace w))) in Hout at 2.
  now apply app_inv_head in Hout.
Qed.

Lemma prompt_for_available_port_frame_witness :
  let w := console (dotenv (lit "PORT=1" ++ [LF])) [Line (lit "y"); Line (lit "n")] in
  let run := prompt_for_available_port (host_with [8000]) (Some (lit "0.0.0.0"))
               8000 w in
  w_fs (snd run) = w_fs w
  /\ w_isatty (snd run) = w_isatty w
  /\ (exists es, w_trace (snd run) = w_trace w ++ es /\ stdout_of es = [])
  /\ (exists consumed, w_stdin w = consumed ++ w_stdin (snd run)).
Proof.
  intros w run.
  apply (prompt_for_available_port_frame (host_with [8000])
           (Some (lit "0.0.0.0")) 8000 w (fst run) (snd run)).
  reflexivity.
Defined.

(** X8.  When the negotiation returns a port other than the initial one,
    the last event of the run is the warning that names both ports. *)
Theorem prompt_for_available_port_announces_change (env : environment)
    (host : option str) (initial_port : Z) (w : world) (p : Z) (w' : world) :
  prompt_for_available_port env host initial_port w = (Return p, w') ->
  p <> initial_port ->
  last (w_trace w') = Some (substitution_warning initial_port p).
Proof.
  intros H Hne.
  apply prompt_for_available_port_trace in H as (es & -> & Hlast).
  destruct (Hlast p eq_refl Hne) as [es' ->].
  now rewrite app_assoc, last_snoc.
Qed.

Lemma prompt_for_available_port_announces_change_witness :
  let w := console ∅ [Line (lit "y")] in
  last (w_trace (snd (prompt_for_available_port (host_with [8000])
                        (Some (lit "0.0.0.0")) 8000 w)))
  = Some (substitution_warning 8000 8001).
Proof.
  intros w.
  apply (prompt_for_available_port_announces_change (host_with [8000])
           (Some (lit "0.0.0.0")) 8000 w 8001).
  - reflexivity.
  - discriminate.
Defined.

(* ===================================================================== *)
(** * Further properties of [update_env_port] *)
(* ===================================================================== *)

Lemma set_fs_same (w : world) : set_fs (w_fs w) w = w.
Proof. now destruct w. Qed.

(** A regular file where a directory is needed makes [mkdir] fail without
    creating anything. *)
Lemma mkdir_parents_blocked (d : path) : forall (m : fs) (a : path) (c : str),
  fs_wf m ->
  a ∈ d :: ancestors d ->
  stat m a = Some (File c) ->
  exists e, mkdir_parents d m = (Raise (OSError e), m).
Proof.
  induction d as [|x up IH]; intros m a c Hwf Ha Hfile.
  - cbn [ancestors] in Ha. apply elem_of_cons in Ha as [-> | Ha];
      [discriminate | now apply elem_of_nil in Ha].
  - cbn [mkdir_parents]. unfold os_mkdir, is_dir.
    destruct (stat m (x :: up)) as [[|c0]|] eqn:Hd.
    + exfalso. apply elem_of_cons in Ha as [-> | Ha]; [congruence|].
      pose proof (fs_wf_ancestors m _ _ Hwf Hd a Ha). congruence.
    + rewrite Hd. eauto.
    + apply elem_of_cons in Ha as [-> | Ha]; [congruence|].
      cbn [ancestors] in Ha. cbn [parent tail].
      destruct (stat m up) as [[|c1]|] eqn:Hup.
      * exfalso. apply elem_of_cons in Ha as [-> | Ha]; [congruence|].
        pose proof (fs_wf_ancestors m _ _ Hwf Hup a Ha). congruence.
      * rewrite Hd. eauto.
      * destruct (IH m a c Hwf Ha Hfile) as [e ->]. eauto.
Qed.

(** X9.  When a regular file stands where a parent directory of the env
    file is needed, [update_env_port] fails with an [OSError] and leaves
    the world as it was: nothing is created, written or logged. *)
Theorem update_env_port_blocked_by_file (env : environment) (port : Z)
    (env_path : option path) (w : world) (a : path) (c : str) :
  fs_wf (w_fs w) ->
  a ∈ ancestors (_resolve_env_path env env_path) ->
  stat (w_fs w) a = Some (File c) ->
  exists e, update_env_port env port env_path w = (Raise (OSError e), w).
Proof.
  intros Hwf Ha Hfile.
  assert (Hne : _resolve_env_path env env_path <> []).
  { intros E. rewrite E in Ha. now apply elem_of_nil in Ha. }
  rewrite <- ancestors_parent in Ha by assumption.
  destruct (mkdir_parents_blocked _ _ _ _ Hwf Ha Hfile) as [e Hmk].
  exists e. rewrite (update_env_port_mkdir_fails _ _ _ _ _ _ Hmk).
  now rewrite set_fs_same.
Qed.

Lemma update_env_port_blocked_by_file_witness :
  let w := console (dotenv (lit "PORT=1" ++ [LF])) [] in
  exists e,
    update_env_port (host_with []) 3000 (Some ["port"; ".env"]%string) w
    = (Raise (OSError e), w).
Proof.
  intros w.
  apply (update_env_port_blocked_by_file (host_with []) 3000
           (Some ["port"; ".env"]%string) w [".env"%string]
           (lit "PORT=1" ++ [LF])).
  - apply fs_wf_dotenv.
  - left.
  - reflexivity.
Defined.

(** X10.  When the env path is a directory, [update_env_port] fails with
    [IsADirectoryError] on reading it and changes nothing. *)
Theorem update_env_port_on_directory (env : environment) (port : Z)
    (env_path : option path) (w : world) :
  fs_wf (w_fs w) ->
  stat (w_fs w) (_resolve_env_path env env_path) = Some Dir ->
  update_env_port env port env_path w
  = (Raise (OSError IsADirectoryError), w).
Proof.
  intros Hwf Hdir.
  assert (Hparent : is_dir (w_fs w) (parent (_resolve_env_path env env_path)) = true).
  { unfold is_dir. destruct (_resolve_env_path env env_path) as [|x up] eqn:E;
      [reflexivity|]. now rewrite (Hwf _ _ Hdir). }
  rewrite (update_env_port_run _ _ _ _ _ (mkdir_parents_noop _ _ Hparent)).
  now rewrite Hdir, set_fs_same.
Qed.

Lemma update_env_port_on_directory_witness :
  update_env_port (host_with []) 3000 (Some ["conf"]%string)
    (console {[ ["conf"%string] := Dir ]} [])
  = (Raise (OSError IsADirectoryError), console {[ ["conf"%string] := Dir ]} []).
Proof.
  apply (update_env_port_on_directory (host_with []) 3000 (Some ["conf"]%string)
           (console {[ ["conf"%string] := Dir ]} [])).
  - intros p n H. unfold console in H. cbn [w_fs] in H.
    apply lookup_singleton_Some in H as [<- _]. reflexivity.
  - reflexivity.
Defined.

(** X11.  Whatever its outcome, [update_env_port] touches nothing but the
    env file and its missing parent directories: every other path keeps
    its state, an ancestor can only turn from missing into a directory,
    the pending input and the terminal are as before, and the trace gains
    exactly the one [INFO] record of a write, and only when the call
    returns [True]. *)
Theorem update_env_port_frame (env : environment) (port : Z)
    (env_path : option path) (w : world) (r : outcome bool) (w' : world) :
  update_env_port env port env_path w = (r, w') ->
  let target := _resolve_env_path env env_path in
  w_stdin w' = w_stdin w
  /\ w_isatty w' = w_isatty w
  /\ w_trace w' = w_trace w ++ (match r with
                                | Return true => [update_log port]
                                | _ => []
                                end)
  /\ (forall p, p <> target ->
        stat (w_fs w') p = stat (w_fs w) p
        \/ (stat (w_fs w) p = None /\ stat (w_fs w') p = Some Dir
            /\ p ∈ ancestors target)).
Proof.
  intros H target.
  destruct (mkdir_parents (parent target) (w_fs w)) as [[[]|e] m1] eqn:Hmk.
  - pose proof (mkdir_parents_inv _ _ _ _ Hmk) as [X _].
    assert (Hstat : forall p, p <> target ->
              stat m1 p = stat (w_fs w) p
              \/ (stat (w_fs w) p = None /\ stat m1 p = Some Dir
                  /\ p ∈ ancestors target)).
    { intros p Hp. destruct (X p) as [E | (N & D & I)]; [now left|].
      right. repeat split; try assumption.
      destruct target as [|x up] eqn:E; [|exact I].
      cbn in I. apply elem_of_cons in I as [-> | I]; [congruence|].
      now apply elem_of_nil in I. }
    rewrite (update_env_port_run _ _ _ _ _ Hmk) in H. fold target in H.
    destruct (stat m1 target) as [[|c]|] eqn:Ht;
      try (injection H as <- <-; cbn [set_fs w_stdin w_isatty w_trace w_fs];
           rewrite app_nil_r; repeat split; assumption);
      destruct (scan_lines _ _ 0 _); injection H as <- <-;
      cbn [written emit set_fs w_stdin w_isatty w_trace w_fs];
      rewrite ?app_nil_r; repeat split; try assumption;
      intros p Hp; rewrite stat_insert_ne by congruence; now apply Hstat.
  - rewrite (update_env_port_mkdir_fails _ _ _ _ _ _ Hmk) in H.
    injection H as <- <-. cbn [set_fs w_stdin w_isatty w_trace w_fs].
    rewrite app_nil_r. repeat split.
    pose proof (mkdir_parents_inv _ _ _ _ Hmk) as [X _].
    intros p Hp. destruct (X p) as [E | (N & D & I)]; [now left|].
    right. repeat split; try assumption.
    destruct target as [|x up] eqn:E; [|exact I].
    cbn in I. apply elem_of_cons in I as [-> | I]; [congruence|].
    now apply elem_of_nil in I.
Qed.

Lemma update_env_port_frame_witness :
  let w := console (dotenv (lit "PORT=1" ++ [LF])) [Line (lit "y")] in
  let run := update_env_port (host_with []) 3000
               (Some ["port.env"; "conf"]%string) w in
  w_stdin (snd run) = w_stdin w
  /\ w_isatty (snd run) = w_isatty w
  /\ w_trace (snd run) = w_trace w ++ (match fst run with
                                       | Return true => [update_log 3000]
                                       | _ => []
                                       end)
  /\ (forall p, p <> ["port.env"; "conf"]%string ->
        stat (w_fs (snd run)) p = stat (w_fs w) p
        \/ (stat (w_fs w) p = None /\ stat (w_fs (snd run)) p = Some Dir
            /\ p ∈ ancestors ["port.env"; "conf"]%string)).
Proof.
  intros w run.
  apply (update_env_port_frame (host_with []) 3000
           (Some ["port.env"; "conf"]%string) w (fst run) (snd run)).
  reflexivity.
Defined.

(** The lines of the env file after a returning call. *)
Lemma update_env_port_lines_after (env : environment) (port : Z)
    (env_path : option path) (w : world) (b : bool) (w' : world) :
  update_env_port env port env_path w = (Return b, w') ->
  let target := _resolve_env_path env env_path in
  let before := env_lines (w_fs w) target in
  let scan := scan_lines (lit "PORT") (assignment port) 0 before in
  (b = false /\ scan = ReturnFalse
   /\ stat (w_fs w') target = stat (w_fs w) target
   /\ env_lines (w_fs w') target = before)
  \/ (b = true /\ scan <> ReturnFalse
      /\ stat (w_fs w') target
         = Some (File (file_text (updated_lines port before)))
      /\ env_lines (w_fs w') target = updated_lines port before).
Proof.
  intros H target before scan.
  destruct (update_env_port_return env port env_path w b w' H)
    as (m1 & Hmk & Hne & Hkeep & Hnodir & Hparent & Hcase).
  fold target in Hmk, Hne, Hkeep, Hnodir, Hparent, Hcase. fold before in Hcase.
  destruct Hcase as [(-> & -> & Hscan) | (-> & -> & Hscan)]; [left | right].
  - repeat split; try assumption.
    unfold before, env_lines. cbn [w_fs set_fs]. now rewrite Hkeep.
  - assert (Hstat : stat (w_fs (written port target (updated_lines port before) m1 w))
                      target
                    = Some (File (file_text (updated_lines port before)))).
    { cbn [written emit set_fs w_fs]. now apply stat_insert_eq. }
    repeat split; try assumption.
    unfold env_lines. rewrite Hstat. apply read_back;
      [apply updated_lines_nonempty
      | apply updated_lines_are_lines, env_lines_are_lines].
Qed.

(** X12.  The flag [update_env_port] returns is accurate: it is [True]
    exactly when the state of the env file after the call differs from
    its state before. *)
Theorem update_env_port_flag_is_accurate (env : environment) (port : Z)
    (env_path : option path) (w : world) (b : bool) (w' : world) :
  update_env_port env port env_path w = (Return b, w') ->
  let target := _resolve_env_path env env_path in
  b = true <-> stat (w_fs w') target <> stat (w_fs w) target.
Proof.
  intros H target.
  destruct (update_env_port_lines_after env port env_path w b w' H)
    as [(-> & _ & Hsame & _) | (-> & Hscan & Hstat & _)];
    fold target in Hsame || fold target in Hscan, Hstat.
  - split; [discriminate | contradiction].
  - split; [|reflexivity]. intros _ Heq. rewrite Hstat in Heq.
    assert (Hl : env_lines (w_fs w) target
                 = updated_lines port (env_lines (w_fs w) target)).
    { unfold env_lines at 1. rewrite <- Heq. apply read_back;
        [apply updated_lines_nonempty
        | apply updated_lines_are_lines, env_lines_are_lines]. }
    apply Hscan. rewrite Hl. now apply scan_updated_lines.
Qed.

Lemma update_env_port_flag_is_accurate_witness :
  let w := console (dotenv (lit " PORT=1" ++ [LF])) [] in
  true = true <->
  stat (w_fs (snd (update_env_port (host_with []) 2 None w))) [".env"%string]
  <> stat (w_fs w) [".env"%string].
Proof.
  intros w.
  apply (update_env_port_flag_is_accurate (host_with []) 2 None w true
           (snd (update_env_port (host_with []) 2 None w))).
  reflexivity.
Defined.

(** X13.  Where the assignment goes: with no [PORT] entry in the file it
    is appended after the last line; otherwise it takes the place of the
    first [PORT] entry, unless that entry already reads [PORT=<port>] once
    stripped, in which case the lines stay as they are. *)
Theorem update_env_port_placement (env : environment) (port : Z)
    (env_path : option path) (w : world) (b : bool) (w' : world) :
  update_env_port env port env_path w = (Return b, w') ->
  let target := _resolve_env_path env env_path in
  let before := env_lines (w_fs w) target in
  let after := env_lines (w_fs w') target in
  (Forall (fun l => is_port_entry l = false) before ->
   b = true /\ after = before ++ [assignment port])
  /\ (forall pre line post,
        before = pre ++ line :: post ->
        Forall (fun l => is_port_entry l = false) pre ->
        is_port_entry line = true ->
        (strip line = assignment port -> b = false /\ after = before)
        /\ (strip line <> assignment port ->
            b = true /\ after = pre ++ assignment port :: post)).
Proof.
  intros H target before after.
  pose proof (update_env_port_lines_after env port env_path w b w' H) as Hcases.
  cbv zeta in Hcases. fold target in Hcases. fold before after in Hcases. split.
  - intros Hnone. destruct (updated_lines_append port before Hnone) as [Hscan Hup].
    destruct Hcases as [(_ & Hs & _) | (-> & _ & _ & Hafter)]; [congruence|].
    rewrite Hafter. now split.
  - intros pre line post Hbefore Hpre Hline. split; intros Hstrip.
    + assert (Hscan : scan_lines (lit "PORT") (assignment port) 0 before
                      = ReturnFalse)
        by (rewrite Hbefore; now apply scan_already_set).
      destruct Hcases as [(-> & _ & _ & Hafter) | (_ & Hs & _)];
        [now split | contradiction].
    + destruct (updated_lines_replace port pre line post Hpre Hline Hstrip)
        as [Hscan Hup].
      rewrite <- Hbefore in Hscan, Hup.
      destruct Hcases as [(_ & Hs & _) | (-> & _ & _ & Hafter)]; [congruence|].
      rewrite Hafter. now split.
Qed.

Lemma update_env_port_placement_witness :
  let w := console (dotenv (lit "# PORT=1" ++ LF :: lit "A=1" ++ [LF])) [] in
  let w' := snd (update_env_port (host_with []) 2 None w) in
  let before := env_lines (w_fs w) [".env"%string] in
  let after := env_lines (w_fs w') [".env"%string] in
  true = true /\ after = before ++ [assignment 2].
Proof.
  intros w w' before after.
  destruct (update_env_port_placement (host_with []) 2 None w true w' eq_refl)
    as [H _].
  apply H. repeat constructor.
Defined.

Lemma join_linebreaks (ls : list str) :
  Forall is_line ls ->
  forall c, c ∈ join [LF] ls -> is_linebreak c = true -> c = LF.
Proof.
  induction 1 as [|l ls Hl _ IH]; intros c Hin Hc.
  - now apply elem_of_nil in Hin.
  - unfold is_line in Hl. rewrite Forall_forall in Hl.
    destruct ls as [|l' ls']; cbn [join] in Hin.
    + apply Hl in Hin. congruence.
    + apply elem_of_app in Hin as [Hin | Hin]; [apply Hl in Hin; congruence|].
      apply elem_of_cons in Hin as [-> | Hin]; [reflexivity | now apply IH].
Qed.

(** X14.  A write normalises the line endings: the text then ends with a
    line feed, and the line feed is the only line boundary in it (no
    carriage return, form feed or Unicode line separator survives). *)
Theorem update_env_port_writes_LF_only (env : environment) (port : Z)
    (env_path : option path) (w : world) (w' : world) :
  update_env_port env port env_path w = (Return true, w') ->
  exists content,
    stat (w_fs w') (_resolve_env_path env env_path) = Some (File content)
    /\ last content = Some LF
    /\ forall c, c ∈ content -> is_linebreak c = true -> c = LF.
Proof.
  intros H.
  destruct (update_env_port_lines_after env port env_path w true w' H)
    as [(Hb & _) | (_ & _ & Hstat & _)]; [discriminate|].
  eexists. split; [exact Hstat|]. unfold file_text. split.
  - apply last_snoc.
  - intros c Hin Hc. apply elem_of_app in Hin as [Hin | Hin].
    + eapply join_linebreaks; [|eassumption..].
      apply updated_lines_are_lines, env_lines_are_lines.
    + apply elem_of_cons in Hin as [-> | Hin];
        [reflexivity | now apply elem_of_nil in Hin].
Qed.

Lemma update_env_port_writes_LF_only_witness :
  let w := console (dotenv (lit "A=1" ++ CR :: LF :: lit "PORT=1" ++ [CR])) [] in
  exists content,
    stat (w_fs (snd (update_env_port (host_with []) 2 None w))) [".env"%string]
    = Some (File content)
    /\ last content = Some LF
    /\ forall c, c ∈ content -> is_linebreak c = true -> c = LF.
Proof.
  intros w.
  apply (update_env_port_writes_LF_only (host_with []) 2 None w
           (snd (update_env_port (host_with []) 2 None w))).
  reflexivity.
Defined.

Lemma fs_wf_insert (m : fs) (p : path) (n : node) :
  fs_wf m -> p <> [] ->
  stat m (parent p) = Some Dir ->
  (n = Dir \/ stat m p <> Some Dir) ->
  fs_wf (<[p := n]> m).
Proof.
  intros Hwf Hne Hparent Hn q k Hq.
  destruct (decide (p = q)) as [<- | Hpq].
  - rewrite stat_insert_ne; [assumption|].
    intros E. now apply (not_own_parent p).
  - rewrite lookup_insert_ne in Hq by assumption.
    pose proof (Hwf _ _ Hq) as Hpar.
    destruct (decide (p = parent q)) as [E | E].
    + rewrite <- E in *. destruct Hn as [-> | Hn]; [|contradiction].
      now apply stat_insert_eq.
    + now rewrite stat_insert_ne.
Qed.

Lemma os_mkdir_wf (d : path) (m : fs) (r : outcome unit) (m' : fs) :
  fs_wf m -> os_mkdir d m = (r, m') -> fs_wf m'.
Proof.
  intros Hwf H.
  apply os_mkdir_inv in H as [(_ & -> & Hd & Hp) | (e & _ & -> & _)];
    [|assumption].
  apply fs_wf_insert; auto. intros ->. discriminate.
Qed.

Lemma mkdir_exist_ok_wf (d : path) (m : fs) (r : outcome unit) (m' : fs) :
  fs_wf m -> mkdir_exist_ok d m = (r, m') -> fs_wf m'.
Proof.
  intros Hwf. unfold mkdir_exist_ok.
  destruct (os_mkdir d m) as [r0 m0] eqn:E.
  pose proof (os_mkdir_wf _ _ _ _ Hwf E) as Hwf0.
  destruct r0 as [[]|[code|[]|n]]; try destruct (is_dir m0 d);
    now intros [= _ <-].
Qed.

Lemma mkdir_parents_wf (d : path) : forall (m : fs) (r : outcome unit) (m' : fs),
  fs_wf m -> mkdir_parents d m = (r, m') -> fs_wf m'.
Proof.
  induction d as [|x up IH]; intros m r m' Hwf; cbn [mkdir_parents];
    destruct (os_mkdir _ m) as [r0 m0] eqn:E;
    pose proof (os_mkdir_wf _ _ _ _ Hwf E) as Hwf0.
  - destruct r0 as [[]|[code|[]|n]]; try destruct (is_dir m0 []);
      now intros [= _ <-].
  - destruct r0 as [[]|[code|e|n]]; try (now intros [= _ <-]).
    destruct e;
      [ destruct (is_dir m0 (x :: up)); now intros [= _ <-]
      | | destruct (is_dir m0 (x :: up)); now intros [= _ <-] .. ].
    destruct (mkdir_parents up m0) as [[[]|e1] m1] eqn:E1.
    + intros E2. eapply mkdir_exist_ok_wf; [|exact E2]. eapply IH; eassumption.
    + intros [= _ <-]. eapply IH; eassumption.
Qed.

(** X15.  [update_env_port] keeps the file system well formed, whatever
    its outcome: every entry still sits in a directory afterwards, so
    calls can follow one another. *)
Theorem update_env_port_keeps_fs_wf (env : environment) (port : Z)
    (env_path : option path) (w : world) (r : outcome bool) (w' : world) :
  fs_wf (w_fs w) ->
  update_env_port env port env_path w = (r, w') ->
  fs_wf (w_fs w').
Proof.
  intros Hwf H.
  destruct (mkdir_parents (parent (_resolve_env_path env env_path)) (w_fs w))
    as [[[]|e] m1] eqn:Hmk;
    pose proof (mkdir_parents_wf _ _ _ _ Hwf Hmk) as Hwf1.
  - pose proof (proj2 (mkdir_parents_inv _ _ _ _ Hmk) eq_refl) as Hdir.
    rewrite (update_env_port_run _ _ _ _ _ Hmk) in H.
    assert (Hins : forall data,
              stat m1 (_resolve_env_path env env_path) <> Some Dir ->
              fs_wf (<[_resolve_env_path env env_path := File data]> m1)).
    { intros data Hnd. apply fs_wf_insert; auto.
      - intros E. rewrite E in Hnd. now apply Hnd.
      - unfold is_dir in Hdir.
        now destruct (stat m1 (parent (_resolve_env_path env env_path))) as [[|]|]. }
    destruct (stat m1 (_resolve_env_path env env_path)) as [[|c]|] eqn:Ht;
      try (now injection H as _ <-);
      destruct (scan_lines _ _ 0 _); injection H as _ <-;
      try assumption; cbn [written emit set_fs w_fs]; now apply Hins.
  - rewrite (update_env_port_mkdir_fails _ _ _ _ _ _ Hmk) in H.
    now injection H as _ <-.
Qed.

Lemma update_env_port_keeps_fs_wf_witness :
  fs_wf (w_fs (snd (update_env_port (host_with []) 3000
                      (Some ["port.env"; "conf"; "srv"]%string) (console ∅ [])))).
Proof.
  apply (update_env_port_keeps_fs_wf (host_with []) 3000
           (Some ["port.env"; "conf"; "srv"]%string) (console ∅ [])
           (fst (update_env_port (host_with []) 3000
                   (Some ["port.env"; "conf"; "srv"]%string) (console ∅ [])))).
  - apply fs_wf_empty.
  - reflexivity.
Defined.

Lemma update_establishes_port (env : environment) (port : Z)
    (env_path : option path) (w : world) (b : bool) (w' : world) :
  update_env_port env port env_path w = (Return b, w') ->
  first_port_entry_is port (env_lines (w_fs w') (_resolve_env_path env env_path)).
Proof.
  intros H. apply scan_ReturnFalse_iff.
  destruct (update_env_port_lines_after env port env_path w b w' H)
    as [(_ & Hscan & _ & ->) | (_ & Hscan & _ & ->)]; [assumption|].
  now apply scan_updated_lines.
Qed.

(** X16.  The postcondition of [update_env_port]: after any call that
    returns, with [True] or with [False], the env file exists and its
    first [PORT] entry reads, stripped, [PORT=<port>]. *)
Theorem update_env_port_ensures_port (env : environment) (port : Z)
    (env_path : option path) (w : world) (b : bool) (w' : world) :
  update_env_port env port env_path w = (Return b, w') ->
  let target := _resolve_env_path env env_path in
  (exists content, stat (w_fs w') target = Some (File content))
  /\ first_port_entry_is port (env_lines (w_fs w') target).
Proof.
  intros H target.
  pose proof (update_establishes_port env port env_path w b w' H) as Hfirst.
  fold target in Hfirst. split; [|exact Hfirst].
  destruct Hfirst as (pre & line & post & Hlines & _).
  unfold env_lines in Hlines.
  destruct (stat (w_fs w') target) as [[|c]|]; eauto;
    now destruct pre.
Qed.

Lemma update_env_port_ensures_port_witness :
  let w := console (dotenv (lit "A=1" ++ LF :: lit " PORT = 1" ++ [LF])) [] in
  let w' := snd (update_env_port (host_with []) 2 None w) in
  (exists content, stat (w_fs w') [".env"%string] = Some (File content))
  /\ first_port_entry_is 2 (env_lines (w_fs w') [".env"%string]).
Proof.
  intros w w'.
  apply (update_env_port_ensures_port (host_with []) 2 None w true w').
  reflexivity.
Defined.

(* ===================================================================== *)
(** * Further properties of the command line entry *)
(* ===================================================================== *)

(** X17.  A successful run of [main]: when the negotiation returns a port
    and the update returns, [main] ends normally (exit status 0) having
    printed exactly the host, the port and the change flag; the port it
    printed is the one the probe reported free and the one the env file's
    first [PORT] entry now holds, and the flag is [1] exactly when the
    update returned [True]. *)
Theorem main_success (env : environment) (w : world)
    (port : Z) (w1 : world) (changed : bool) (w2 : world) :
  prompt_for_available_port env (HOST env) (PORT env) w = (Return port, w1) ->
  update_env_port env port None w1 = (Return changed, w2) ->
  exists w',
    main env w = (Return tt, w')
    /\ exit_status (fst (main env w)) = 0
    /\ w_fs w' = w_fs w2
    /\ stdout_of (w_trace w')
       = stdout_of (w_trace w)
         ++ [str_of_host (HOST env) ++ [LF]; str_of_int port ++ [LF];
             (if changed then lit "1" else lit "0") ++ [LF]]
    /\ first_port_entry_is port (env_lines (w_fs w') (ENV_FILE env))
    /\ (forall w0, fst (is_port_in_use env (HOST env) port w0) = Return false).
Proof.
  intros Hneg Hupd.
  assert (Hmain : main env w
                  = (Return tt,
                     emit (Stdout ((if changed then lit "1" else lit "0") ++ [LF]))
                       (emit (Stdout (str_of_int port ++ [LF]))
                          (emit (Stdout (str_of_host (HOST env) ++ [LF])) w2)))).
  { unfold main, bind. now rewrite Hneg, Hupd. }
  eexists. split; [exact Hmain|]. rewrite Hmain. cbn [fst exit_status].
  split; [reflexivity|]. split; [reflexivity|]. split; [|split].
  - pose proof (update_env_port_stdout _ _ _ _ _ _ Hupd) as Hout2.
    apply prompt_for_available_port_run in Hneg as ((_ & _ & Hout1) & _).
    cbn [emit w_trace]. rewrite !stdout_of_app, Hout2, Hout1.
    cbn [stdout_of]. now rewrite <- !app_assoc.
  - cbn [emit w_fs].
    exact (update_establishes_port env port None w1 changed w2 Hupd).
  - apply prompt_for_available_port_run in Hneg
      as (_ & consumed & _ & _ & _ & Hfree).
    exact Hfree.
Qed.

Lemma main_success_witness :
  let w := console ∅ [Line (lit "y")] in
  exists w',
    main (host_with [8000]) w = (Return tt, w')
    /\ exit_status (fst (main (host_with [8000]) w)) = 0
    /\ w_fs w'
       = w_fs (snd (update_env_port (host_with [8000]) 8001 None
                      (snd (prompt_for_available_port (host_with [8000])
                              (Some (lit "0.0.0.0")) 8000 w))))
    /\ stdout_of (w_trace w')
       = stdout_of (w_trace w)
         ++ [lit "0.0.0.0" ++ [LF]; lit "8001" ++ [LF]; lit "1" ++ [LF]]
    /\ first_port_entry_is 8001 (env_lines (w_fs w') [".env"%string])
    /\ (forall w0, fst (is_port_in_use (host_with [8000]) (Some (lit "0.0.0.0"))
                          8001 w0) = Return false).
Proof.
  intros w.
  apply (main_success (host_with [8000]) w 8001
           (snd (prompt_for_available_port (host_with [8000])
                   (Some (lit "0.0.0.0")) 8000 w))
           true
           (snd (update_env_port (host_with [8000]) 8001 None
                   (snd (prompt_for_available_port (host_with [8000])
                           (Some (lit "0.0.0.0")) 8000 w))))).
  - reflexivity.
  - reflexivity.
Defined.
